(** * Bayesian linear regression: the closed-form conjugate update

    Verification of the numerical cells of the lecture notebook
    [lectures/02_bayesian_neural_networks/01_pyro_basics.ipynb] (the Gaussian
    prior, the conjugate update, the second update that reuses the posterior
    as prior, the posterior predictive band) and of the model/guide pair of
    the stochastic variational inference notebook.

    The arrays of the notebook are matrices over an ordered field: the
    statements are about exact arithmetic, the notebook itself runs them in
    floating point. *)

From Stdlib Require String.
From HB Require Import structures.
From mathcomp Require Import boot order algebra.
From mathcomp Require Import ring_tactic field_tactic arithmetic_tactic.

Set Implicit Arguments.
Unset Strict Implicit.
Unset Printing Implicit Defensive.

Import GRing.Theory Num.Theory Order.Theory.
Local Open Scope ring_scope.

(** ** The two [numpy.linalg] calls of the notebook

    [np.linalg.inv] and [np.linalg.solve] raise [LinAlgError] on a singular
    matrix; [None] stands for the raised exception. *)

Section LinAlg.

Variable F : fieldType.

Definition linalg_inv n (A : 'M[F]_n) : option 'M[F]_n :=
  if A \in unitmx then Some (invmx A) else None.

Definition linalg_solve n k (A : 'M[F]_n) (b : 'M[F]_(n, k)) :
  option 'M[F]_(n, k) :=
  if A \in unitmx then Some (invmx A *m b) else None.

End LinAlg.

(** ** The conjugate update *)

Section Updater.

Variable F : realFieldType.
Variable P : nat.

(** [Sn = seps**2*np.linalg.inv(np.dot(Phi.T, Phi) + seps**2*np.linalg.inv(So))] *)
Definition Sn N (seps : F) (So : 'M[F]_P) (Phi : 'M[F]_(N, P)) :
  option 'M[F]_P :=
  if linalg_inv So is Some Si then
    if linalg_inv (Phi^T *m Phi + seps ^+ 2 *: Si) is Some K
    then Some (seps ^+ 2 *: K) else None
  else None.

(** [mn = np.dot(Sn, np.linalg.solve(So, mo)) + np.dot(Sn, np.dot(Phi.T, y))/seps**2] *)
Definition mn N (seps : F) (So : 'M[F]_P) (mo : 'cV[F]_P) (S1 : 'M[F]_P)
    (Phi : 'M[F]_(N, P)) (y : 'cV[F]_N) : option 'cV[F]_P :=
  if linalg_solve So mo is Some z
  then Some (S1 *m z + (seps ^+ 2)^-1 *: (S1 *m (Phi^T *m y)))
  else None.

(** A belief is the pair (mean, covariance). *)
Definition belief : Type := 'cV[F]_P * 'M[F]_P.

(** The two assignments of the update, in the order of the cell. *)
Definition update N (seps : F) (st : belief) (Phi : 'M[F]_(N, P))
    (y : 'cV[F]_N) : option belief :=
  if Sn seps st.2 Phi is Some S1 then
    if mn seps st.2 st.1 S1 Phi y is Some m1 then Some (m1, S1) else None
  else None.

(** One update per observation: the rows [js] of the batch, one at a time,
    each posterior being the prior of the next update. *)
Definition update_rows N (seps : F) (Phi : 'M[F]_(N, P)) (y : 'cV[F]_N)
    (js : seq 'I_N) (st : belief) : option belief :=
  foldl (fun o j => obind (fun s => update seps s (row j Phi) (row j y)) o)
        (Some st) js.

(** *** The posterior predictive band

    [np.dot(Phi_x, mn)] and the argument of [np.sqrt] in
    [sx = np.sqrt(np.diag(seps**2 + np.dot(np.dot(Phi_x, Sn), Phi_x.T)))];
    [seps**2 + M] adds the scalar to every entry of [M]. *)
Definition predict_mean M (Phi_x : 'M[F]_(M, P)) (m : 'cV[F]_P) : 'cV[F]_M :=
  Phi_x *m m.

Definition predict_var M (seps : F) (Phi_x : 'M[F]_(M, P)) (S : 'M[F]_P) :
  'cV[F]_M :=
  \col_i (const_mx (seps ^+ 2) + Phi_x *m S *m Phi_x^T) i i.

Definition predict M (seps : F) (st : belief) (Phi_x : 'M[F]_(M, P)) :
  'cV[F]_M * 'cV[F]_M :=
  (predict_mean Phi_x st.1, predict_var seps Phi_x st.2).

(** *** The variables of the notebook and its cells

    A cell is a sequence of assignments; an exception stops the cell and
    leaves the variables as they are at that point. *)
Record notebook : Type := Notebook {
  nb_So : 'M[F]_P;
  nb_mo : 'cV[F]_P;
  nb_Sn : 'M[F]_P;
  nb_mn : 'cV[F]_P
}.

Inductive outcome : Type := Done | LinAlgError.

Definition cell : Type := notebook -> notebook * outcome.

Definition then_ (c1 c2 : cell) : cell :=
  fun nb => let: (nb1, r) := c1 nb in
            if r is Done then c2 nb1 else (nb1, r).

(** [So = Sn] *)
Definition assign_So : cell :=
  fun nb => (Notebook (nb_Sn nb) (nb_mo nb) (nb_Sn nb) (nb_mn nb), Done).

(** [mo = mn] *)
Definition assign_mo : cell :=
  fun nb => (Notebook (nb_So nb) (nb_mn nb) (nb_Sn nb) (nb_mn nb), Done).

(** [Sn = ...] *)
Definition assign_Sn N (seps : F) (Phi : 'M[F]_(N, P)) : cell :=
  fun nb => if Sn seps (nb_So nb) Phi is Some S1
            then (Notebook (nb_So nb) (nb_mo nb) S1 (nb_mn nb), Done)
            else (nb, LinAlgError).

(** [mn = ...] *)
Definition assign_mn N (seps : F) (Phi : 'M[F]_(N, P)) (y : 'cV[F]_N) : cell :=
  fun nb => if mn seps (nb_So nb) (nb_mo nb) (nb_Sn nb) Phi y is Some m1
            then (Notebook (nb_So nb) (nb_mo nb) (nb_Sn nb) m1, Done)
            else (nb, LinAlgError).

(** The cell "The updated parameters". *)
Definition update_cell N (seps : F) (Phi : 'M[F]_(N, P)) (y : 'cV[F]_N) :
  cell :=
  then_ (assign_Sn seps Phi) (assign_mn seps Phi y).

(** The cell that observes a further point: the posterior becomes the
    prior, then the same two assignments. *)
Definition reupdate_cell N (seps : F) (Phi : 'M[F]_(N, P)) (y : 'cV[F]_N) :
  cell :=
  then_ assign_So (then_ assign_mo (update_cell seps Phi y)).

(** *** Symmetric positive (semi-)definite matrices *)

Definition dot (x z : 'cV[F]_P) : F := (x^T *m z) 0 0.

Definition qform (A : 'M[F]_P) (x : 'cV[F]_P) : F := (x^T *m A *m x) 0 0.

Definition symmetric (A : 'M[F]_P) : Prop := A^T = A.

Definition psd (A : 'M[F]_P) : Prop := forall x, 0 <= qform A x.

Definition pd (A : 'M[F]_P) : Prop := forall x, x != 0 -> 0 < qform A x.

Definition sym_psd (A : 'M[F]_P) : Prop := symmetric A /\ psd A.

Definition sym_pd (A : 'M[F]_P) : Prop := symmetric A /\ pd A.

End Updater.

(** The band that is plotted is the mean plus or minus [2*sx]; the square
    root needs a real closed field.  ([np.sqrt] of a negative number is
    [nan], [Num.sqrt] is 0 there; the argument is not negative when the
    covariance is positive semi-definite.) *)

Section Band.

Variable R : rcfType.
Variable P : nat.

(** [sx = np.sqrt(np.diag(seps**2 + np.dot(np.dot(Phi_x, Sn), Phi_x.T)))] *)
Definition sx M (seps : R) (Phi_x : 'M[R]_(M, P)) (S : 'M[R]_P) : 'cV[R]_M :=
  map_mx Num.sqrt (predict_var seps Phi_x S).

End Band.

(** ** Array literals *)

Section Arrays.

Variable F : realFieldType.

(** [np.array([[...], ...])] *)
Definition np_array m n (rows : seq (seq F)) : 'M[F]_(m, n) :=
  \matrix_(i, j) nth 0 (nth [::] rows i) j.

(** [np.array([...])], a vector *)
Definition np_vector n (xs : seq F) : 'cV[F]_n := \col_i nth 0 xs i.

(** [np.diag(np.array([...]))] *)
Definition np_diag n (xs : seq F) : 'M[F]_n :=
  \matrix_(i, j) if i == j then nth 0 xs i else 0.

(** Entrywise agreement up to [tol]. *)
Definition close (tol : F) m n (A B : 'M[F]_(m, n)) : bool :=
  [forall i, forall j, `|A i j - B i j| <= tol].

End Arrays.

(** ** The numbers of the notebook *)

Module Example.

(** The cell "Initialization". *)
Definition mw : rat := 0.
Definition mb : rat := 0.
Definition sw : rat := 5%:R.
Definition sb : rat := 5%:R.
Definition So : 'M[rat]_2 := np_diag 2 [:: sb ^+ 2; sw ^+ 2].
Definition mo : 'cV[rat]_2 := np_vector 2 [:: mb; mw].
Definition seps : rat := 1.

(** The cell "Data": the observation at x = 2, y = 2. *)
Definition Phi : 'M[rat]_(1, 2) := np_array 1 2 [:: [:: 1; 2%:R]].
Definition y : 'cV[rat]_1 := np_vector 1 [:: 2%:R].

(** The further observation at x = -2, y = -2. *)
Definition Phi' : 'M[rat]_(1, 2) := np_array 1 2 [:: [:: 1; - 2%:R]].
Definition y' : 'cV[rat]_1 := np_vector 1 [:: - 2%:R].

(** Both observations as one batch. *)
Definition Phi_all : 'M[rat]_(2, 2) :=
  np_array 2 2 [:: [:: 1; 2%:R]; [:: 1; - 2%:R]].
Definition y_all : 'cV[rat]_2 := np_vector 2 [:: 2%:R; - 2%:R].

(** What the first update yields, in closed form. *)
Definition Sn_exact : 'M[rat]_2 :=
  np_array 2 2 [:: [:: 2525%:R / 126%:R; - (625%:R / 63%:R)];
                   [:: - (625%:R / 63%:R); 325%:R / 63%:R]].
Definition mn_exact : 'cV[rat]_2 :=
  np_vector 2 [:: 25%:R / 63%:R; 50%:R / 63%:R].

(** The same to three decimals. *)
Definition Sn_rounded : 'M[rat]_2 :=
  np_array 2 2
    [:: [:: 20%:R + 40%:R / 1000%:R; - (9%:R + 921%:R / 1000%:R)];
        [:: - (9%:R + 921%:R / 1000%:R); 5%:R + 159%:R / 1000%:R]].

(** The covariance [[0.962, -0.385], [-0.385, 0.558]]. *)
Definition Sn_quoted : 'M[rat]_2 :=
  np_array 2 2 [:: [:: 962%:R / 1000%:R; - (385%:R / 1000%:R)];
                   [:: - (385%:R / 1000%:R); 558%:R / 1000%:R]].

(** The inverse of the prior covariance. *)
Definition Si_exact : 'M[rat]_2 := np_diag 2 [:: 1 / 25%:R; 1 / 25%:R].

(** The variables after the cell "Initialization" ([Sn] and [mn] are not
    bound yet; any value does). *)
Definition nb_init : notebook rat 2 := Notebook So mo 0 0.

(** The variables after the first update. *)
Definition nb_first : notebook rat 2 := Notebook So mo Sn_exact mn_exact.

(** The inverse of the first posterior covariance, and what the second
    update yields. *)
Definition Sni_exact : 'M[rat]_2 :=
  np_array 2 2 [:: [:: 26%:R / 25%:R; 2%:R]; [:: 2%:R; 101%:R / 25%:R]].
Definition Sn_second : 'M[rat]_2 :=
  np_diag 2 [:: 25%:R / 51%:R; 25%:R / 201%:R].
Definition mn_second : 'cV[rat]_2 := np_vector 2 [:: 0; 200%:R / 201%:R].

(** The variables after the second update. *)
Definition nb_second : notebook rat 2 :=
  Notebook Sn_exact mn_exact Sn_second mn_second.

(** The second observation first, then the first. *)
Definition js_reversed : seq 'I_2 := [:: lift ord0 ord0; ord0].

(** A direction orthogonal to the first observation. *)
Definition x_orth : 'cV[rat]_2 := np_vector 2 [:: 2%:R; - 1].

End Example.

(** A prior with one zero-variance dimension ([sb = 0], [sw = 1]), and the
    design row [[1, x]] of the input [x = 0]. *)

Module Degenerate.

Definition sb : rat := 0.
Definition sw : rat := 1.
Definition So : 'M[rat]_2 := np_diag 2 [:: sb ^+ 2; sw ^+ 2].
Definition mo : 'cV[rat]_2 := np_vector 2 [:: 0; 0].
Definition seps : rat := 1.
Definition Phi_x : 'M[rat]_(1, 2) := np_array 1 2 [:: [:: 1; 0]].


(** The zero design vector against the identity covariance. *)
Definition Phi_zero : 'M[rat]_(1, 2) := np_array 1 2 [:: [:: 0; 0]].

End Degenerate.

(** A prior with different variances for intercept and slope ([sb = 1],
    [sw = 2]), an observation at [x = 1], and the direction [[1, -1]]
    orthogonal to its design row [[1, 1]]. *)

Module Skewed.

Definition sb : rat := 1.
Definition sw : rat := 2%:R.
Definition So : 'M[rat]_2 := np_diag 2 [:: sb ^+ 2; sw ^+ 2].
Definition mo : 'cV[rat]_2 := np_vector 2 [:: 0; 0].
Definition seps : rat := 1.
Definition Phi : 'M[rat]_(1, 2) := np_array 1 2 [:: [:: 1; 1]].
Definition y : 'cV[rat]_1 := np_vector 1 [:: 1].
Definition x_orth : 'cV[rat]_2 := np_vector 2 [:: 1; - 1].

(** The two inverses of the update and its result. *)
Definition Si_exact : 'M[rat]_2 := np_diag 2 [:: 1; 1 / 4%:R].
Definition Sn_exact : 'M[rat]_2 :=
  np_array 2 2 [:: [:: 5%:R / 6%:R; - (2%:R / 3%:R)];
                   [:: - (2%:R / 3%:R); 4%:R / 3%:R]].
Definition mn_exact : 'cV[rat]_2 := np_vector 2 [:: 1 / 6%:R; 2%:R / 3%:R].

End Skewed.

(** ** Python exceptions

    A call returns a value or is left by an exception. *)

Module Python.

Inductive exception : Type := TypeError | ValueError | KeyError | IndexError.

Inductive result (A : Type) : Type :=
  | Return (a : A)
  | Raise (e : exception).

Arguments Raise {A} e.

Definition bind (A B : Type) (r : result A) (f : A -> result B) : result B :=
  match r with
  | Return a => f a
  | Raise e => Raise e
  end.

End Python.

(** ** The model and the guide of the variational notebook

    A distribution is its family and arguments.  The argument constraints,
    the supports and the reparameterised draws are those of
    [torch.distributions]: [Normal] wants a positive scale, has the whole
    line as support and draws [loc + eps * scale]; [Uniform(low, high)]
    has the interval as support and draws [low + u * (high - low)].  With
    validation on ([pyro.enable_validation(True)]) a distribution built on
    arguments outside its constraints raises [ValueError].  A statement
    [pyro.sample(name, fn, key=value, ...)] draws its value with the call
    [fn(key=value, ...)]: the keywords other than [obs] and [infer] go to
    the call of the distribution, whose only parameter is
    [sample_shape]. *)

Module Pyro.

Import Python.

Section Sites.

Import String.

Variable F : realFieldType.

Inductive distribution : Type :=
  | Normal (loc scale : F)
  | Uniform (low high : F).

Definition valid_args (d : distribution) : bool :=
  match d with
  | Normal _ scale => 0 < scale
  | Uniform low high => low < high
  end.

Definition support (d : distribution) (v : F) : bool :=
  match d with
  | Normal _ _ => true
  | Uniform low high => (low <= v) && (v <= high)
  end.

Definition rsample (d : distribution) (eps : F) : F :=
  match d with
  | Normal loc scale => loc + eps * scale
  | Uniform low high => low + eps * (high - low)
  end.

(** The latent sites "w", "b", "s". *)
Record latents : Type := Latents { w : F; b : F; s : F }.

(** [model_obs]: the priors of the three sites and the likelihood of the
    observed site "y" at input [x]. *)
Definition model_w : distribution := Normal 0 10%:R.
Definition model_b : distribution := Normal 0 10%:R.
Definition model_s : distribution := Uniform (1 / 100%:R) 10%:R.
Definition model_y (x : F) (th : latents) : distribution :=
  Normal (x * w th + b th) (s th).

(** [guide]: the parameters registered with [pyro.param] and the three
    sample statements. *)
Record params : Type :=
  Params { w_loc : F; w_scale : F; b_loc : F; b_scale : F; s_loc : F }.

Definition guide_w (nu : params) : distribution :=
  Normal (w_loc nu) (w_scale nu).
Definition guide_b (nu : params) : distribution :=
  Normal (b_loc nu) (b_scale nu).
Definition guide_s (nu : params) : distribution :=
  Normal (s_loc nu) (5%:R / 100%:R).

(** [Normal(loc, scale)], [Uniform(low, high)] with validation on. *)
Definition construct (d : distribution) : result distribution :=
  if valid_args d then Return d else Raise ValueError.

(** [pyro.sample(name, fn, key=value, ...)] on the noise [eps]; [kwargs]
    are the names of the keywords other than [obs] and [infer].  The call
    [fn(key=value, ...)] raises [TypeError] on a keyword that is not
    [sample_shape]. *)
Definition sample (fn : distribution) (kwargs : seq string) (eps : F) :
  result F :=
  if all (String.eqb "sample_shape"%string) kwargs
  then Return (rsample fn eps) else Raise TypeError.

(** One run of the guide on the noise [(eps_w, eps_b, eps_s)], statement
    by statement; the statement of the site "s" is
    [pyro.sample("s", Normal(s_loc, torch.tensor(0.05)),
                 constraint=constraints.positive)]. *)
Definition guide (nu : params) (eps : F * F * F) : result latents :=
  bind (construct (guide_w nu)) (fun q_w =>
  bind (sample q_w [::] eps.1.1) (fun w_ =>
  bind (construct (guide_b nu)) (fun q_b =>
  bind (sample q_b [::] eps.1.2) (fun b_ =>
  bind (construct (guide_s nu)) (fun q_s =>
  bind (sample q_s [:: "constraint"%string] eps.2) (fun s_ =>
  Return (Latents w_ b_ s_))))))).

(** The initial values passed to [pyro.param]. *)
Definition init_params : params := Params 0 1 0 1 1.

End Sites.

End Pyro.

(** ** The posterior as a density and the plotted lines *)

Section Regression.

Variable F : realFieldType.

(** Minus twice the exponent of likelihood times prior, as the notebook
    writes the posterior:
    (Y - Phi theta)^T (Y - Phi theta) / seps^2 +
    (theta - theta0)^T So^-1 (theta - theta0). *)
Definition exponent P N (seps : F) (st : belief F P) (Phi : 'M[F]_(N, P))
    (y : 'cV[F]_N) (theta : 'cV[F]_P) : F :=
  (seps ^+ 2)^-1 * dot (y - Phi *m theta) (y - Phi *m theta) +
  qform (invmx st.2) (theta - st.1).

(** [Phi_x = np.vstack(([1]*100, x_test[:, 0])).T]: the rows [[1, x]]. *)
Definition design M (x_test : 'cV[F]_M) : 'M[F]_(M, 2) :=
  \matrix_(i, j) if j == 0 then 1 else x_test i 0.

(** [torch.nn.Linear(1, 1)] applied to a column of inputs: x W^T + b, the
    bias added to every row. *)
Definition linear_layer M (weight bias : 'M[F]_1) (x : 'cV[F]_M) : 'cV[F]_M :=
  x *m weight^T + \col_i bias 0 0.

(** The layer of the cells that plot sampled lines:
    [linear_layer.weight.data = rparam[1].reshape(-1, 1)],
    [linear_layer.bias.data = rparam[0].reshape(-1, 1)],
    [y_test = linear_layer(x_test)]. *)
Definition sampled_line M (rparam : 'cV[F]_2) (x_test : 'cV[F]_M) : 'cV[F]_M :=
  linear_layer (rparam (lift ord0 ord0) 0)%:M (rparam ord0 0)%:M x_test.

End Regression.

(** ** The training loops of the variational notebooks

    [svi.step] is the library's gradient step: it returns the loss and
    changes the parameter store.  The loops only record what it returns;
    they are modelled over an arbitrary step function.  The loop over
    [epoch_loss] runs on a guide that the library builds
    ([AutoDiagonalNormal]) and its step is taken to return; the loop that
    records the parameters runs on the hand-written guide, and its step
    returns or raises. *)

Module Training.

Import String.
Import Python.

Section Dict.

Variable V : Type.

(** A Python dict with string keys, in insertion order. *)
Definition dict : Type := seq (string * V).

(** [d[key]]: [None] is [KeyError]. *)
Fixpoint getitem (d : dict) (key : string) : option V :=
  match d with
  | [::] => None
  | (k, v) :: d' => if String.eqb k key then Some v else getitem d' key
  end.

(** [d[key] = v] *)
Fixpoint setitem (d : dict) (key : string) (v : V) : dict :=
  match d with
  | [::] => [:: (key, v)]
  | (k, v') :: d' =>
      if String.eqb k key then (k, v) :: d' else (k, v') :: setitem d' key v
  end.

End Dict.

Section Loops.

Variable F : realFieldType.
Variable store : Type.

(** [svi.step(x, y)]: the loss, and the parameter store after the step. *)
Variable svi_step : store -> F * store.

(** The store after [n] steps, and the loss that step number [n] returns. *)
Definition store_after (n : nat) (s : store) : store :=
  iter n (fun s' => (svi_step s').2) s.

Definition loss_at (s : store) (n : nat) : F := (svi_step (store_after n s)).1.

Record line2d : Type := Line2D { xdata : seq nat; ydata : seq F }.

(** The iteration of the last redraw before iteration [n]. *)
Definition last_redraw (period n : nat) : nat :=
  (n.-1 %/ period * period)%N.

(** *** The loop that fills [epoch_loss]

    [epoch_loss = np.zeros(shape=(n,))]; in the loop
    [epoch_loss[k] = loss / len(x_torch)] and, every tenth iteration,
    [update_plot] draws [range(k)] against [epoch_loss[:k]]. *)
Record epoch_state : Type := EpochState {
  es_store : store;
  epoch_loss : seq F;
  loss_curve : line2d
}.

Definition epoch_state0 (n : nat) (s : store) : epoch_state :=
  EpochState s (nseq n 0) (Line2D [::] [::]).

(** [a[k] = v]: [IndexError] past the end. *)
Definition setitem_array (a : seq F) (k : nat) (v : F) : option (seq F) :=
  if (k < size a)%N then Some (set_nth 0 a k v) else None.

(** [loss / len(x_torch)]: a Python float by an int, [ZeroDivisionError]
    on zero. *)
Definition per_example (loss : F) (len_x : nat) : option F :=
  if len_x == 0%N then None else Some (loss / len_x%:R).

Definition epoch_step (len_x : nat) (k : nat) (st : epoch_state) :
  option epoch_state :=
  let: (loss, s') := svi_step (es_store st) in
  if per_example loss len_x is Some v then
    if setitem_array (epoch_loss st) k v is Some a then
      if (k %% 10 == 0)%N
      then Some (EpochState s' a (Line2D (iota 0 k) (take k a)))
      else Some (EpochState s' a (loss_curve st))
    else None
  else None.

(** The first [m] iterations of [for k in tqdm(range(len(epoch_loss)))]. *)
Definition epoch_loop (len_x : nat) (m : nat) (st : epoch_state) :
  option epoch_state :=
  foldl (fun o k => obind (epoch_step len_x k) o) (Some st) (iota 0 m).

End Loops.

(** *** The loop that records the parameters

    The cell's variables are the parameter store of pyro, the dict
    [param_evolution] and the six lines of the figure.  A run of the loop
    ends with these variables and, when an exception left it, that
    exception. *)

Section Recording.

Variable F : realFieldType.
Variable store : Type.

(** [svi.step(x, y)]: the loss it returns or the exception that leaves it,
    and the parameter store afterwards. *)
Variable svi_step : store -> result F * store.

(** [pyro.param(name).item()] *)
Variable param_item : string -> store -> F.

Definition param_names : seq string :=
  [:: "ELBO"%string; "w_loc"%string; "b_loc"%string; "s_loc"%string;
      "w_scale"%string; "b_scale"%string].

(** [param_evolution = {}], then [param_evolution[name] = []] for every
    name. *)
Definition param_evolution0 : dict (seq F) :=
  foldl (fun d name => setitem d name [::]) [::] param_names.

(** [lines = [ax_.plot([], [])[0] for ax_ in ax]], on six axes. *)
Definition lines0 : seq (line2d F) := nseq 6 (Line2D [::] [::]).

Record loop_state : Type := LoopState {
  ls_store : store;
  param_evolution : dict (seq F);
  lines : seq (line2d F)
}.

(** [for name in names: param_evolution[name].append(pyro.param(name).item())]
    on the store [s]: a missing key stops the loop with [KeyError], the
    lists appended to before it stay appended to. *)
Fixpoint append_params (s : store) (names : seq string) (d : dict (seq F)) :
  dict (seq F) * option exception :=
  match names with
  | [::] => (d, None)
  | name :: names' =>
      if getitem d name is Some l
      then append_params s names' (setitem d name (rcons l (param_item name s)))
      else (d, Some KeyError)
  end.

(** [lines[i].set_ydata(param_evolution[name][:k])] for every
    [i, name in enumerate(param_names)]: [lines[i]] past the end is
    [IndexError], a missing key [KeyError]; the lines set before stay
    set. *)
Fixpoint set_ydata_all (k : nat) (d : dict (seq F)) (names : seq string)
    (ls : seq (line2d F)) : seq (line2d F) * option exception :=
  match names, ls with
  | [::], _ => (ls, None)
  | _ :: _, [::] => ([::], Some IndexError)
  | name :: names', l :: ls' =>
      if getitem d name is Some v then
        let: (ls'', e) := set_ydata_all k d names' ls' in
        (Line2D (xdata l) (take k v) :: ls'', e)
      else (ls, Some KeyError)
  end.

(** [line.set_xdata(range(k))] for every line. *)
Definition set_xdata_all (k : nat) (ls : seq (line2d F)) : seq (line2d F) :=
  [seq Line2D (iota 0 k) (ydata l) | l <- ls].

(** The body of [for k in tqdm(range(3000))].  In
    [param_evolution["ELBO"].append(svi.step(x, y))] the list is looked up
    before the step runs, and an exception of the step leaves the dict and
    the lines as they are. *)
Definition record_step (k : nat) (st : loop_state) :
  loop_state * option exception :=
  if getitem (param_evolution st) "ELBO"%string is Some l then
    let: (r, s') := svi_step (ls_store st) in
    match r with
    | Raise e => (LoopState s' (param_evolution st) (lines st), Some e)
    | Return loss =>
        let d1 := setitem (param_evolution st) "ELBO"%string (rcons l loss) in
        let: (d2, e2) := append_params s' (behead param_names) d1 in
        if e2 is Some e then (LoopState s' d2 (lines st), Some e) else
        if (k %% 100 == 0)%N then
          let: (ls1, e3) := set_ydata_all k d2 param_names (lines st) in
          if e3 is Some e then (LoopState s' d2 ls1, Some e)
          else (LoopState s' d2 (set_xdata_all k ls1), None)
        else (LoopState s' d2 (lines st), None)
    end
  else (st, Some KeyError).

(** The first [n] iterations; an exception ends the loop. *)
Definition record_loop (n : nat) (st : loop_state) :
  loop_state * option exception :=
  foldl (fun r k => if r.2 is Some _ then r else record_step k r.1)
        (st, None) (iota 0 n).

(** What iteration [j] records under [name], when the steps return the
    losses [loss j] and leave the stores [stores j.+1]: the loss of the
    step, or the parameter after the step. *)
Definition recorded (loss : nat -> F) (stores : nat -> store)
    (name : string) (j : nat) : F :=
  if String.eqb name "ELBO"%string then loss j
  else param_item name (stores j.+1).

(** The variables of the cell after [k] such iterations: every list holds
    its [k] values, the lines hold what the last redraw gave them. *)
Definition recorded_state (loss : nat -> F) (stores : nat -> store)
    (k : nat) : loop_state :=
  LoopState (stores k)
    [seq (name, [seq recorded loss stores name j | j <- iota 0 k])
    | name <- param_names]
    (if k is 0 then lines0
     else [seq Line2D (iota 0 (last_redraw 100 k))
                 [seq recorded loss stores name j
                 | j <- iota 0 (last_redraw 100 k)]
          | name <- param_names]).

End Recording.

(** *** [svi.step] on the hand-written guide

    [pyro.infer.SVI(model=model_obs, guide=guide, ...)]: a step runs the
    guide first, and an exception of the guide leaves the step.  What the
    step does once the guide has returned (the run of the model, the loss,
    the move of the optimiser) is a parameter. *)

Section SVI.

Variable F : realFieldType.
Variable store : Type.

(** The values that [pyro.param] gives the guide, and the noise of its
    draws. *)
Variable params_of : store -> Pyro.params F.
Variable noise : store -> F * F * F.

(** The rest of the step, and the store that a guide which raised leaves
    behind. *)
Variable finish : store -> Pyro.latents F -> F * store.
Variable abandoned : store -> store.

Definition svi_step (s : store) : result F * store :=
  match Pyro.guide (params_of s) (noise s) with
  | Return th => let: (loss, s') := finish s th in (Return loss, s')
  | Raise e => (Raise e, abandoned s)
  end.

End SVI.

End Training.

(** ** The data and the votes of the classification notebook *)

Module Classifier.

Section Indexing.

Variable T : Type.

(** [a[i]] *)
Definition getitem (a : seq T) (i : nat) : option T := nth None (map Some a) i.

(** [a[idx]] for a list of indices: [IndexError] when one is out of
    range. *)
Definition getitems (a : seq T) (idx : seq nat) : option (seq T) :=
  if all (fun i => (i < size a)%N) idx then Some (pmap (getitem a) idx)
  else None.

End Indexing.

(** [x_train = X[idx[:cut]]], [y_train = y[idx[:cut]]],
    [x_test = X[idx[cut:]]], [y_test = y[idx[cut:]]], where
    [idx = np.random.permutation(N*3)] and
    [cut = int(N*K*train_prop)]. *)
Definition train_test_split (T : Type) (X : seq T) (y : seq nat)
    (idx : seq nat) (cut : nat) :
  option (seq T) * option (seq nat) * option (seq T) * option (seq nat) :=
  (getitems X (take cut idx), getitems y (take cut idx),
   getitems X (drop cut idx), getitems y (drop cut idx)).

Section Votes.

(** [samples["obs"]]: one row of class labels per posterior sample, one
    column per point of the grid. *)
Variables (S Np : nat).

(** [torch.nn.functional.one_hot(obs, num_classes=3)]: [RuntimeError]
    when a label is not below the number of classes. *)
Definition one_hot (obs : 'M[nat]_(S, Np)) :
  option ('I_S -> 'M[nat]_(Np, 3)) :=
  if [forall s, forall j, (obs s j < 3)%N]
  then Some (fun s => \matrix_(j, c) nat_of_bool (obs s j == c :> nat))
  else None.

(** [p = one_hot(...).sum(dim=0)] *)
Definition class_votes (obs : 'M[nat]_(S, Np)) : option 'M[nat]_(Np, 3) :=
  omap (fun oh : 'I_S -> 'M[nat]_(Np, 3) =>
          \matrix_(j, c) (\sum_(s < S) oh s j c)%N) (one_hot obs).

(** [p.argmax(dim=1)] *)
Definition argmax_dim1 (p : 'M[nat]_(Np, 3)) (j : 'I_Np) : 'I_3 :=
  [arg max_(c > ord0) p j c].

(** [p / 100.] *)
Definition class_frequencies (p : 'M[nat]_(Np, 3)) : 'M[rat]_(Np, 3) :=
  \matrix_(j, c) ((p j c)%:R / 100%:R).

End Votes.

End Classifier.

(** ** Dot products and quadratic forms *)

Section QuadraticForms.

Variable F : realFieldType.
Variable P : nat.
Implicit Types (A B : 'M[F]_P) (x z w : 'cV[F]_P) (a : F).

Lemma dotE x z : dot x z = \sum_i x i 0 * z i 0.
Proof. by rewrite /dot mxE; apply: eq_bigr => i _; rewrite mxE. Qed.

Lemma dotC x z : dot x z = dot z x.
Proof. by rewrite !dotE; apply: eq_bigr => i _; rewrite mulrC. Qed.

Lemma dotDr x z w : dot x (z + w) = dot x z + dot x w.
Proof. by rewrite /dot mulmxDr mxE. Qed.

Lemma dotDl x z w : dot (x + z) w = dot x w + dot z w.
Proof. by rewrite dotC dotDr dotC [dot w z]dotC. Qed.

Lemma dotZr a x z : dot x (a *: z) = a * dot x z.
Proof. by rewrite /dot -scalemxAr mxE. Qed.

Lemma dotZl a x z : dot (a *: x) z = a * dot x z.
Proof. by rewrite dotC dotZr dotC. Qed.

Lemma dotNr x z : dot x (- z) = - dot x z.
Proof. by rewrite /dot mulmxN mxE. Qed.

Lemma dotNl x z : dot (- x) z = - dot x z.
Proof. by rewrite dotC dotNr dotC. Qed.

Lemma dot0r x : dot x 0 = 0.
Proof. by rewrite /dot mulmx0 mxE. Qed.

Lemma dot_mulmx A x z : dot x (A *m z) = dot (A^T *m x) z.
Proof. by rewrite /dot trmx_mul trmxK mulmxA. Qed.

Lemma dot_ge0 x : 0 <= dot x x.
Proof. by rewrite dotE; apply: sumr_ge0 => i _; rewrite -expr2 sqr_ge0. Qed.

Lemma dot_eq0 x : dot x x = 0 -> x = 0.
Proof.
rewrite dotE => /eqP; rewrite psumr_eq0 => [i _|/allP xx0].
  by rewrite -expr2 sqr_ge0.
apply/colP => i; rewrite mxE; apply/eqP.
by have := xx0 i; rewrite mem_index_enum /= mulf_eq0 orbb; apply.
Qed.

Lemma dot_gt0 x : x != 0 -> 0 < dot x x.
Proof.
move=> xN0; rewrite lt_def dot_ge0 andbT.
by apply: contraNneq xN0 => /dot_eq0 ->.
Qed.

Lemma qformE A x : qform A x = dot x (A *m x).
Proof. by rewrite /qform /dot mulmxA. Qed.

Lemma qform_tr A x : qform A^T x = qform A x.
Proof. by rewrite !qformE [RHS]dot_mulmx dotC. Qed.

Lemma qformD A B x : qform (A + B) x = qform A x + qform B x.
Proof. by rewrite !qformE mulmxDl dotDr. Qed.

Lemma qformZ a A x : qform (a *: A) x = a * qform A x.
Proof. by rewrite !qformE -scalemxAl dotZr. Qed.

Lemma qform_gram N (Phi : 'M[F]_(N, P)) x :
  qform (Phi^T *m Phi) x = \sum_i ((Phi *m x) i 0) ^+ 2.
Proof.
rewrite /qform mulmxA -trmx_mul -mulmxA mxE.
by apply: eq_bigr => i _; rewrite mxE expr2.
Qed.

End QuadraticForms.

Section PosDef.

Variable F : realFieldType.
Variable P : nat.
Implicit Types (A B : 'M[F]_P) (x z w : 'cV[F]_P) (a : F).

Lemma pd_psd A : pd A -> psd A.
Proof.
move=> pdA x; have [->|xN0] := eqVneq x 0; last exact/ltW/pdA.
by rewrite qformE mulmx0 dot0r.
Qed.

Lemma sym_pd_psd A : sym_pd A -> sym_psd A.
Proof. by case=> symA /pd_psd. Qed.

Lemma pd_unitmx A : pd A -> A \in unitmx.
Proof.
move=> pdA; rewrite -unitmx_tr unitmxE unitfE.
apply/negP => /det0P [v vN0 vA0].
have xN0 : v^T != 0 by rewrite -(trmx0 F 1 P) (inj_eq trmx_inj).
have := pdA _ xN0.
by rewrite qformE -[A]trmxK -trmx_mul vA0 trmx0 dot0r ltxx.
Qed.

Lemma psd_gram N (Phi : 'M[F]_(N, P)) : psd (Phi^T *m Phi).
Proof.
by move=> x; rewrite qform_gram; apply: sumr_ge0 => i _; rewrite sqr_ge0.
Qed.

Lemma sym_gram N (Phi : 'M[F]_(N, P)) : symmetric (Phi^T *m Phi).
Proof. by rewrite /symmetric trmx_mul trmxK. Qed.

Lemma pdD A B : psd A -> pd B -> pd (A + B).
Proof.
move=> psdA pdB x xN0; rewrite qformD.
exact: ltr_wpDl (psdA x) (pdB x xN0).
Qed.

Lemma pdZ a A : 0 < a -> pd A -> pd (a *: A).
Proof. by move=> a0 pdA x xN0; rewrite qformZ mulr_gt0 // pdA. Qed.

Lemma psdZ a A : 0 <= a -> psd A -> psd (a *: A).
Proof. by move=> a0 psdA x; rewrite qformZ mulr_ge0. Qed.

Lemma symD A B : symmetric A -> symmetric B -> symmetric (A + B).
Proof. by rewrite /symmetric linearD /= => -> ->. Qed.

Lemma symZ a A : symmetric A -> symmetric (a *: A).
Proof. by rewrite /symmetric linearZ /= => ->. Qed.

Lemma sym_inv A : symmetric A -> symmetric (invmx A).
Proof. by rewrite /symmetric trmx_inv => ->. Qed.

Lemma qform_inv A x : A \in unitmx ->
  qform (invmx A) x = qform A (invmx A *m x).
Proof.
move=> uA; rewrite -[in RHS]qform_tr !qformE.
by rewrite [in RHS]dot_mulmx trmxK mulKVmx.
Qed.

Lemma pd_inv A : pd A -> pd (invmx A).
Proof.
move=> pdA x xN0; have uA := pd_unitmx pdA.
rewrite qform_inv //; apply: pdA.
by apply: contraNneq xN0 => Ax0; rewrite -[x](mulKVmx uA) Ax0 mulmx0.
Qed.

Lemma sym_pd_inv A : sym_pd A -> sym_pd (invmx A).
Proof. by case=> /sym_inv symA /pd_inv. Qed.

End PosDef.

(** ** The update on a positive-definite prior *)

Section UpdateTheory.

Variable F : realFieldType.
Variable P : nat.
Implicit Types (So A : 'M[F]_P) (mo x : 'cV[F]_P) (seps : F).

Lemma sqr_seps_gt0 seps : (0 < seps ^+ 2) = (seps != 0).
Proof. by rewrite lt0r sqrf_eq0 sqr_ge0 andbT. Qed.

Lemma sym_pd_regularised N seps So (Phi : 'M[F]_(N, P)) :
  sym_pd So -> 0 < seps ^+ 2 ->
  sym_pd (Phi^T *m Phi + seps ^+ 2 *: invmx So).
Proof.
move=> /sym_pd_inv [symSi pdSi] s0; split.
  by apply: symD; [exact: sym_gram | exact: symZ].
by apply: pdD; [exact: psd_gram | exact: pdZ].
Qed.

Lemma SnE N seps So (Phi : 'M[F]_(N, P)) :
  sym_pd So -> 0 < seps ^+ 2 ->
  Sn seps So Phi =
  Some (seps ^+ 2 *: invmx (Phi^T *m Phi + seps ^+ 2 *: invmx So)).
Proof.
move=> pdSo s0; have [_ /pd_unitmx uK] := sym_pd_regularised Phi pdSo s0.
by rewrite /Sn /linalg_inv (pd_unitmx pdSo.2) uK.
Qed.

Lemma mnE N seps So mo (S1 : 'M[F]_P) (Phi : 'M[F]_(N, P)) (y : 'cV[F]_N) :
  So \in unitmx ->
  mn seps So mo S1 Phi y =
  Some (S1 *m (invmx So *m mo) + (seps ^+ 2)^-1 *: (S1 *m (Phi^T *m y))).
Proof. by move=> uSo; rewrite /mn /linalg_solve uSo. Qed.

Lemma updateE N seps mo So (Phi : 'M[F]_(N, P)) (y : 'cV[F]_N) :
  sym_pd So -> 0 < seps ^+ 2 ->
  let S1 := seps ^+ 2 *: invmx (Phi^T *m Phi + seps ^+ 2 *: invmx So) in
  update seps (mo, So) Phi y =
  Some (S1 *m (invmx So *m mo) + (seps ^+ 2)^-1 *: (S1 *m (Phi^T *m y)), S1).
Proof.
by move=> pdSo s0; rewrite /update /= SnE // mnE // (pd_unitmx pdSo.2).
Qed.

(** A failing second assignment would leave a new [Sn] next to the old
    [mn]: it cannot happen, [Sn] is only assigned when [So] is invertible. *)
Lemma Sn_Some_unitmx N seps So (Phi : 'M[F]_(N, P)) S1 :
  Sn seps So Phi = Some S1 -> So \in unitmx.
Proof. by rewrite /Sn /linalg_inv; case: ifP. Qed.

Lemma update_SnE N seps mo So (Phi : 'M[F]_(N, P)) (y : 'cV[F]_N) :
  update seps (mo, So) Phi y =
  if Sn seps So Phi is Some S1
  then Some (S1 *m (invmx So *m mo) +
             (seps ^+ 2)^-1 *: (S1 *m (Phi^T *m y)), S1)
  else None.
Proof.
rewrite /update /=; case E: (Sn seps So Phi) => [S1|] //.
by rewrite mnE // (Sn_Some_unitmx E).
Qed.

Lemma update_cellE N seps (Phi : 'M[F]_(N, P)) (y : 'cV[F]_N) nb :
  update_cell seps Phi y nb =
  if update seps (nb_mo nb, nb_So nb) Phi y is Some (m1, S1)
  then (Notebook (nb_So nb) (nb_mo nb) S1 m1, Done)
  else (nb, LinAlgError).
Proof.
rewrite update_SnE /update_cell /then_ /assign_Sn /assign_mn.
case E: (Sn seps (nb_So nb) Phi) => [S1|] //=.
by rewrite mnE // (Sn_Some_unitmx E).
Qed.

Lemma update_sym_pd N seps mo So (Phi : 'M[F]_(N, P)) (y : 'cV[F]_N) st :
  sym_pd So -> 0 < seps ^+ 2 ->
  update seps (mo, So) Phi y = Some st -> sym_pd st.2.
Proof.
move=> pdSo s0; rewrite updateE // => -[<-] /=.
have [symK pdK] := sym_pd_inv (sym_pd_regularised Phi pdSo s0).
by split; [exact: symZ | exact: pdZ].
Qed.

(** The update in information form: precisions and precision-weighted
    means add up. *)
Lemma update_precision N seps mo So (Phi : 'M[F]_(N, P)) (y : 'cV[F]_N) st :
  sym_pd So -> 0 < seps ^+ 2 ->
  update seps (mo, So) Phi y = Some st ->
  invmx st.2 = invmx So + (seps ^+ 2)^-1 *: (Phi^T *m Phi).
Proof.
move=> pdSo s0; rewrite updateE // => -[<-] /=.
have [_ /pd_unitmx uK] := sym_pd_regularised Phi pdSo s0.
have us : seps ^+ 2 \is a GRing.unit by rewrite unitfE gt_eqF.
rewrite invmxZ ?unitmxZ ?unitmx_inv // invmxK scalerDr scalerA mulVr //.
by rewrite scale1r addrC.
Qed.

Lemma update_information N seps mo So (Phi : 'M[F]_(N, P)) (y : 'cV[F]_N) st :
  sym_pd So -> 0 < seps ^+ 2 ->
  update seps (mo, So) Phi y = Some st ->
  invmx st.2 *m st.1 = invmx So *m mo + (seps ^+ 2)^-1 *: (Phi^T *m y).
Proof.
move=> pdSo s0 Est; have [_ /pd_unitmx uS1] := update_sym_pd pdSo s0 Est.
move: Est uS1; rewrite updateE // => -[<-] /= uS1.
by rewrite scalemxAr -mulmxDr mulKmx.
Qed.

End UpdateTheory.

(** ** One batch against one update per row *)

Section Sequential.

Variable F : realFieldType.
Variable P : nat.
Implicit Types (So A : 'M[F]_P) (mo x : 'cV[F]_P) (seps : F).

Lemma gram_rows N (Phi : 'M[F]_(N, P)) :
  Phi^T *m Phi = \sum_(j < N) (row j Phi)^T *m row j Phi.
Proof.
apply/matrixP => i k; rewrite mxE summxE; apply: eq_bigr => j _.
by rewrite !mxE big_ord1 !mxE.
Qed.

Lemma moment_rows N (Phi : 'M[F]_(N, P)) (y : 'cV[F]_N) :
  Phi^T *m y = \sum_(j < N) (row j Phi)^T *m row j y.
Proof.
apply/matrixP => i k; rewrite mxE summxE; apply: eq_bigr => j _.
by rewrite !mxE big_ord1 !mxE.
Qed.

Lemma update_rows_cons N seps (Phi : 'M[F]_(N, P)) (y : 'cV[F]_N) j js st :
  update_rows seps Phi y (j :: js) st =
  if update seps st (row j Phi) (row j y) is Some s1
  then update_rows seps Phi y js s1 else None.
Proof.
rewrite /update_rows /=; case: (update _ _ _ _) => [s1|] //.
by elim: js => [|k js IH].
Qed.

Lemma update_rows_information N seps (Phi : 'M[F]_(N, P)) (y : 'cV[F]_N) js :
  0 < seps ^+ 2 -> forall mo So, sym_pd So ->
  exists st,
    [/\ update_rows seps Phi y js (mo, So) = Some st, sym_pd st.2,
        invmx st.2 = invmx So +
          (seps ^+ 2)^-1 *: (\sum_(j <- js) (row j Phi)^T *m row j Phi)
      & invmx st.2 *m st.1 = invmx So *m mo +
          (seps ^+ 2)^-1 *: (\sum_(j <- js) (row j Phi)^T *m row j y)].
Proof.
move=> s0; elim: js => [|j js IH] mo So pdSo.
  by exists (mo, So); split; rewrite ?big_nil ?scaler0 ?addr0.
have [[m1 S1] Est] :
    exists s1, update seps (mo, So) (row j Phi) (row j y) = Some s1.
  by rewrite updateE //; eexists.
have pdS1 : sym_pd S1 := update_sym_pd pdSo s0 Est.
have [st [Ers pdst Eprec Einfo]] := IH m1 S1 pdS1.
exists st; split=> //.
- by rewrite update_rows_cons Est.
- rewrite Eprec (update_precision pdSo s0 Est) /= big_cons scalerDr.
  by rewrite addrA.
- rewrite Einfo (update_information pdSo s0 Est) /= big_cons scalerDr.
  by rewrite addrA.
Qed.

Lemma belief_inj (st st' : belief F P) :
  st.2 \in unitmx ->
  invmx st.2 = invmx st'.2 -> invmx st.2 *m st.1 = invmx st'.2 *m st'.1 ->
  st = st'.
Proof.
case: st st' => [m S] [m' S'] /= uS /(can_inj (@invmxK _ _)) ES; rewrite -ES.
move=> /(congr1 (mulmx S)); rewrite !mulKVmx // => ->.
by [].
Qed.

End Sequential.

(** ** Comparing quadratic forms *)

Section Loewner.

Variable F : realFieldType.
Variable P : nat.
Implicit Types (So A B : 'M[F]_P) (mo x z w : 'cV[F]_P) (seps a b : F).

Lemma qform_lin2 A x w a b : symmetric A ->
  qform A (a *: x + b *: w) =
  a ^+ 2 * qform A x + 2 * a * b * dot w (A *m x) + b ^+ 2 * qform A w.
Proof.
move=> symA; rewrite !qformE mulmxDr -!scalemxAr dotDl !dotDr !dotZl !dotZr.
have -> : dot x (A *m w) = dot w (A *m x) by rewrite dot_mulmx symA dotC.
by ring.
Qed.

(** A singular direction of a positive semi-definite matrix is in its
    kernel; an invertible one has none. *)
Lemma psd_unit_pd A : symmetric A -> psd A -> A \in unitmx -> pd A.
Proof.
move=> symA psdA uA x xN0; rewrite lt_def psdA andbT.
apply: contraNneq xN0 => qx0; rewrite -[x](mulKmx uA).
set w := A *m x; suff -> : w = 0 by rewrite mulmx0.
apply: dot_eq0; apply/eqP; rewrite eq_le dot_ge0 andbT leNgt; apply/negP => d0.
have := psdA ((qform A w + dot w w) *: x + (- dot w w) *: w).
rewrite qform_lin2 // qx0 -/w; have := psdA w.
move: d0; move: (qform A w) (dot w w) => q d d0 q0 h.
have h2 : 0 <= d * d * q by rewrite !mulr_ge0 // ltW.
have h3 : 0 < d * d * d by rewrite !mulr_gt0.
by nra.
Qed.

Lemma qform_inv_le A B : symmetric A -> symmetric B -> pd A -> pd B ->
  (forall z, qform B z <= qform A z) ->
  forall x, qform (invmx A) x <= qform (invmx B) x.
Proof.
move=> symA symB pdA pdB leBA x.
have uA := pd_unitmx pdA; have uB := pd_unitmx pdB.
rewrite !qform_inv //; set u := invmx A *m x; set v := invmx B *m x.
have := pd_psd pdB (1 *: v + (- 1) *: u); rewrite qform_lin2 //.
have := leBA u; rewrite [qform A u]qformE [qform B v]qformE.
rewrite !mulKVmx // [dot v x]dotC.
by move: (qform B u) (dot x v) (dot u x) => p q r; lra.
Qed.

Lemma qform_update_le N seps mo So (Phi : 'M[F]_(N, P)) (y : 'cV[F]_N) st x :
  sym_pd So -> 0 < seps ^+ 2 ->
  update seps (mo, So) Phi y = Some st ->
  qform st.2 x <= qform So x.
Proof.
move=> pdSo s0 Est; have pdS1 := update_sym_pd pdSo s0 Est.
have [symSi pdSi] := sym_pd_inv pdSo; have [symS1i pdS1i] := sym_pd_inv pdS1.
rewrite -[st.2]invmxK -[So]invmxK; apply: qform_inv_le => // z.
rewrite (update_precision pdSo s0 Est) qformD qformZ lerDl mulr_ge0 //.
  by rewrite invr_ge0 ltW.
exact: psd_gram.
Qed.

(** A direction whose image under the prior covariance is orthogonal to
    every row of the batch is left alone by the update. *)
Lemma update_fixes N seps mo So (Phi : 'M[F]_(N, P)) (y : 'cV[F]_N) st x :
  sym_pd So -> 0 < seps ^+ 2 ->
  update seps (mo, So) Phi y = Some st ->
  Phi *m So *m x = 0 -> st.2 *m x = So *m x.
Proof.
move=> pdSo s0 Est PSx; have [_ /pd_unitmx uS1] := update_sym_pd pdSo s0 Est.
rewrite -[So *m x](mulKVmx uS1) (update_precision pdSo s0 Est).
rewrite mulmxDl (mulKmx (pd_unitmx pdSo.2)) -scalemxAl -!mulmxA.
by rewrite [Phi *m _]mulmxA PSx mulmx0 scaler0 addr0.
Qed.

End Loewner.

(** ** The claims about the update and the prediction *)

Section Claims.

Variable F : realFieldType.
Variable P : nat.
Implicit Types (So Sigma : 'M[F]_P) (mo mu x : 'cV[F]_P) (seps : F).
Implicit Types (nb : notebook F P).

Lemma predict_meanE M (Phi_x : 'M[F]_(M, P)) mu i :
  predict_mean Phi_x mu i 0 = dot (row i Phi_x)^T mu.
Proof. by rewrite /predict_mean /dot trmxK -row_mul [RHS]mxE. Qed.

Lemma predict_varE M seps (Phi_x : 'M[F]_(M, P)) Sigma i :
  predict_var seps Phi_x Sigma i 0 = seps ^+ 2 + qform Sigma (row i Phi_x)^T.
Proof.
rewrite /predict_var /qform trmxK -!row_mul !mxE; congr (_ + _).
by apply: eq_bigr => k _; rewrite !mxE.
Qed.

(** C1: on a symmetric positive-definite prior covariance and with a
    positive noise variance, both inverses of the update exist, the update
    returns Sigma1 = s2 (Phi^T Phi + s2 Sigma^-1)^-1 and
    mu1 = Sigma1 Sigma^-1 mu + (1/s2) Sigma1 Phi^T y computed from the
    current (mu, Sigma), and the cell stores them in [Sn] and [mn]. *)
Theorem update_closed_form N seps (Phi : 'M[F]_(N, P)) (y : 'cV[F]_N) nb :
  sym_pd (nb_So nb) -> 0 < seps ^+ 2 ->
  let Sigma := nb_So nb in
  let mu := nb_mo nb in
  let K := Phi^T *m Phi + seps ^+ 2 *: invmx Sigma in
  let Sigma1 := seps ^+ 2 *: invmx K in
  let mu1 := Sigma1 *m invmx Sigma *m mu +
             (seps ^+ 2)^-1 *: (Sigma1 *m Phi^T *m y) in
  [/\ invmx Sigma *m Sigma = 1%:M, invmx K *m K = 1%:M,
      update seps (mu, Sigma) Phi y = Some (mu1, Sigma1)
    & update_cell seps Phi y nb = (Notebook Sigma mu Sigma1 mu1, Done)].
Proof.
move=> pdSo s0 /=; have [_ /pd_unitmx uK] := sym_pd_regularised Phi pdSo s0.
have uSo := pd_unitmx pdSo.2.
by rewrite update_cellE updateE // !mulmxA !mulVmx.
Qed.

(** C2, as amended: [predict] returns the mean x^T mu and the variance
    seps^2 + x^T Sigma x for each design row x; the variance is at least
    seps^2 when Sigma is positive semi-definite, and strictly greater when
    Sigma is positive definite and x is not the zero vector. *)
Theorem predict_mean_variance M seps mu Sigma (Phi_x : 'M[F]_(M, P)) i :
  let x := (row i Phi_x)^T in
  let out := predict seps (mu, Sigma) Phi_x in
  [/\ out.1 i 0 = dot x mu,
      out.2 i 0 = seps ^+ 2 + qform Sigma x,
      psd Sigma -> seps ^+ 2 <= out.2 i 0
    & pd Sigma -> x != 0 -> seps ^+ 2 < out.2 i 0].
Proof.
rewrite /predict /= predict_meanE predict_varE; split=> //.
  by move=> psdS; rewrite lerDl.
by move=> pdS xN0; rewrite ltrDl pdS.
Qed.

(** C3: from a symmetric positive-definite prior and with a fixed positive
    noise variance, one update with the whole batch and one update per
    row, the rows taken in any order, both succeed and end in the same
    (mean, covariance). *)
Theorem batch_equals_rows N seps mo So (Phi : 'M[F]_(N, P)) (y : 'cV[F]_N) js :
  sym_pd So -> 0 < seps ^+ 2 -> perm_eq js (enum 'I_N) ->
  exists2 st, update seps (mo, So) Phi y = Some st
            & update_rows seps Phi y js (mo, So) = Some st.
Proof.
move=> pdSo s0 pjs.
have [st Est] : exists st, update seps (mo, So) Phi y = Some st.
  by rewrite updateE //; eexists.
have [st' [Est' pdst' prec info]] :=
  update_rows_information Phi y js s0 mo pdSo.
exists st => //; rewrite Est'; congr Some; apply: belief_inj.
- exact: pd_unitmx pdst'.2.
- rewrite prec (update_precision pdSo s0 Est) (perm_big _ pjs) /=.
  by rewrite big_enum /= -gram_rows.
- rewrite info (update_information pdSo s0 Est) (perm_big _ pjs) /=.
  by rewrite big_enum /= -moment_rows.
Qed.

Lemma update_sym_psd N seps mo So (Phi : 'M[F]_(N, P)) (y : 'cV[F]_N) st :
  sym_psd So -> 0 < seps ^+ 2 ->
  update seps (mo, So) Phi y = Some st -> sym_psd st.2.
Proof.
move=> psdS s0 Est; have uS : So \in unitmx.
  move: Est; rewrite update_SnE; case E: (Sn _ _ _) => // _.
  exact: Sn_Some_unitmx E.
have pdS : sym_pd So by case: psdS => symS /psd_unit_pd; split; auto.
exact: sym_pd_psd (update_sym_pd pdS s0 Est).
Qed.

(** C5: an update of a symmetric positive semi-definite covariance
    returns a symmetric positive semi-definite covariance, and the cell
    that runs it leaves one in [Sn] whether the update goes through or
    stops on a singular matrix. *)
Theorem update_keeps_sym_psd N seps (Phi : 'M[F]_(N, P)) (y : 'cV[F]_N) nb :
  sym_psd (nb_Sn nb) -> 0 < seps ^+ 2 ->
  sym_psd (nb_Sn (reupdate_cell seps Phi y nb).1) /\
  forall st, update seps (nb_mn nb, nb_Sn nb) Phi y = Some st -> sym_psd st.2.
Proof.
move=> psdS s0; split; last by move=> st; apply: update_sym_psd.
rewrite /reupdate_cell /then_ /= update_cellE /=.
case Est: (update _ _ _ _) => [[m1 S1]|] //=.
exact: (update_sym_psd psdS s0 Est).
Qed.

(** C6: from a symmetric positive-definite covariance the update succeeds,
    its covariance is again symmetric positive definite, and for every
    design row the predictive variance of the new state is at most that of
    the old one; this holds for every row, aligned with the observations
    or not, and so along any sequence of updates. *)
Theorem predict_var_nonincreasing N seps mo So (Phi : 'M[F]_(N, P))
    (y : 'cV[F]_N) :
  sym_pd So -> 0 < seps ^+ 2 ->
  exists2 st, update seps (mo, So) Phi y = Some st
    & sym_pd st.2 /\
      forall M (Phi_x : 'M[F]_(M, P)) i,
        (predict seps st Phi_x).2 i 0 <= (predict seps (mo, So) Phi_x).2 i 0.
Proof.
move=> pdSo s0.
have [st Est] : exists st, update seps (mo, So) Phi y = Some st.
  by rewrite updateE //; eexists.
exists st => //; split; first exact: update_sym_pd Est.
move=> M Phi_x i; rewrite /predict /= !predict_varE lerD2l.
exact: qform_update_le Est.
Qed.

(** C7, as amended: when Phi Sigma x = 0, that is when x is orthogonal
    to every design row of the update in the inner product of the current
    covariance, the update leaves x^T Sigma x unchanged. *)
Theorem epistemic_term_unchanged N seps mo So (Phi : 'M[F]_(N, P))
    (y : 'cV[F]_N) x :
  sym_pd So -> 0 < seps ^+ 2 -> Phi *m So *m x = 0 ->
  exists2 st, update seps (mo, So) Phi y = Some st
            & qform st.2 x = qform So x.
Proof.
move=> pdSo s0 PSx.
have [st Est] : exists st, update seps (mo, So) Phi y = Some st.
  by rewrite updateE //; eexists.
by exists st => //; rewrite !qformE (update_fixes pdSo s0 Est PSx).
Qed.



End Claims.

Lemma sx_sqr (R : rcfType) P M (seps : R) (Phi_x : 'M[R]_(M, P))
    (S : 'M[R]_P) i :
  psd S -> sx seps Phi_x S i 0 ^+ 2 = seps ^+ 2 + qform S (row i Phi_x)^T.
Proof.
by move=> psdS; rewrite /sx mxE predict_varE sqr_sqrtr // addr_ge0 ?sqr_ge0.
Qed.

(** ** Checking an update from a certificate of its two inverses *)

Section Certificates.

Variable F : realFieldType.
Variable P : nat.
Implicit Types (So Si Ki : 'M[F]_P) (mo : 'cV[F]_P) (seps : F).

Lemma linalg_inv_certificate n (A B : 'M[F]_n) :
  A *m B = 1%:M -> linalg_inv A = Some B.
Proof.
move=> AB1; have [uA _] := mulmx1_unit AB1.
by rewrite /linalg_inv uA -[B](mulKmx uA) AB1 mulmx1.
Qed.

Lemma Sn_certificate N seps So Si Ki (Phi : 'M[F]_(N, P)) :
  So *m Si = 1%:M -> (Phi^T *m Phi + seps ^+ 2 *: Si) *m Ki = 1%:M ->
  Sn seps So Phi = Some (seps ^+ 2 *: Ki).
Proof.
move=> SoSi KKi.
by rewrite /Sn (linalg_inv_certificate SoSi) (linalg_inv_certificate KKi).
Qed.

Lemma update_certificate N seps So Si Ki mo (Phi : 'M[F]_(N, P))
    (y : 'cV[F]_N) :
  So *m Si = 1%:M -> (Phi^T *m Phi + seps ^+ 2 *: Si) *m Ki = 1%:M ->
  update seps (mo, So) Phi y =
  Some ((seps ^+ 2 *: Ki) *m (Si *m mo) +
        (seps ^+ 2)^-1 *: ((seps ^+ 2 *: Ki) *m (Phi^T *m y)), seps ^+ 2 *: Ki).
Proof.
move=> SoSi KKi; rewrite update_SnE (Sn_certificate SoSi KKi).
have [uSo _] := mulmx1_unit SoSi.
by rewrite -[Si](mulKmx uSo) SoSi mulmx1.
Qed.

End Certificates.

(** ** Small matrices, entry by entry *)

Lemma ord1_ind (Q : 'I_1 -> Prop) : Q ord0 -> forall i, Q i.
Proof. by move=> Q0 i; rewrite ord1. Qed.

Lemma ord2_ind (Q : 'I_2 -> Prop) :
  Q ord0 -> Q (lift ord0 ord0) -> forall i, Q i.
Proof.
move=> Q0 Q1 [[|[|i]] Hi] //.
- by rewrite (_ : Ordinal Hi = ord0) //; apply: val_inj.
- by rewrite (_ : Ordinal Hi = lift ord0 ord0) //; apply: val_inj.
Qed.

Ltac each_index :=
  let i := fresh "i" in
  move=> i; first [elim/ord1_ind: i | elim/ord2_ind: i].

Ltac entries := rewrite !(mxE, big_ord_recl, big_ord0) /=.

Ltac by_entries := apply/matrixP; each_index; each_index; entries.

Section SmallMatrices.

Variable F : realFieldType.

Lemma sym_pd_diag2 (a c : F) : 0 < a -> 0 < c -> sym_pd (np_diag 2 [:: a; c]).
Proof.
move=> a0 c0; split; first by rewrite /symmetric; by_entries.
move=> x /dot_gt0; rewrite dotE /qform; entries.
move: (x ord0 0) (x (lift ord0 ord0) 0) => p q pq.
have p2 : 0 <= p * p by rewrite -expr2 sqr_ge0.
have q2 : 0 <= q * q by rewrite -expr2 sqr_ge0.
have ap : 0 <= a * (p * p) by rewrite mulr_ge0 // ltW.
have cq : 0 <= c * (q * q) by rewrite mulr_ge0 // ltW.
have [p0|q0] : 0 < p * p \/ 0 < q * q by nra.
  have : 0 < a * (p * p) by rewrite mulr_gt0.
  by lra.
have : 0 < c * (q * q) by rewrite mulr_gt0.
by lra.
Qed.


Lemma perm_reversed2 : perm_eq [:: lift ord0 ord0; ord0] (enum 'I_2).
Proof.
apply: uniq_perm; rewrite ?enum_uniq //.
by elim/ord2_ind; rewrite mem_enum !inE.
Qed.

End SmallMatrices.

(** ** The update on the numbers of the notebook *)

Section ExampleTheory.

Import Example.

Lemma seps_gt0 : 0 < seps ^+ 2.
Proof. by rewrite /seps; lra. Qed.

Lemma sym_pd_So : sym_pd So.
Proof. by apply: sym_pd_diag2; rewrite /sb /sw; lra. Qed.

Lemma So_Si : So *m Si_exact = 1%:M.
Proof. by by_entries; rewrite /sb /sw; field. Qed.

Lemma K_Ki : (Phi^T *m Phi + seps ^+ 2 *: Si_exact) *m Sn_exact = 1%:M.
Proof. by by_entries; rewrite /seps; field. Qed.

Lemma first_update : update seps (mo, So) Phi y = Some (mn_exact, Sn_exact).
Proof.
rewrite (update_certificate _ _ So_Si K_Ki); congr (Some (_, _)).
  by by_entries; rewrite /seps /mb /mw; field.
by by_entries; rewrite /seps; field.
Qed.

Lemma closeP (tol : rat) (A B : 'M[rat]_2) :
  reflect (forall i j, `|A i j - B i j| <= tol) (close tol A B).
Proof.
apply: (iffP forallP) => [h i j|h i]; first by move/forallP: (h i).
by apply/forallP => j.
Qed.

Lemma close_arrays (tol a b c d a' b' c' d' : rat) :
  [/\ `|a - a'| <= tol, `|b - b'| <= tol, `|c - c'| <= tol
     & `|d - d'| <= tol] ->
  close tol (np_array 2 2 [:: [:: a; b]; [:: c; d]])
            (np_array 2 2 [:: [:: a'; b']; [:: c'; d']]).
Proof. by case=> ha hb hc hd; apply/closeP; do 2![elim/ord2_ind]; entries. Qed.

Lemma far_arrays (tol a b c d a' b' c' d' : rat) :
  tol < `|a - a'| ->
  ~~ close tol (np_array 2 2 [:: [:: a; b]; [:: c; d]])
               (np_array 2 2 [:: [:: a'; b']; [:: c'; d']]).
Proof.
move=> far; apply/negP => /closeP /(_ ord0 ord0); entries.
by rewrite leNgt far.
Qed.

(** C4, as amended: on the prior mu0 = [0, 0], Sigma0 = diag(25, 25), the
    observation Phi = [[1, 2]], y = [2] and seps = 1 the update yields
    Sigma1 = [[2525/126, -625/63], [-625/63, 325/63]], that is
    [[20.040, -9.921], [-9.921, 5.159]] to three decimals, and
    mu1 = [25/63, 50/63], for which b + 2 w = 125/63, within 0.02 of 2
    (it is 0 for the prior mean). *)
Theorem first_update_values :
  [/\ update seps (mo, So) Phi y = Some (mn_exact, Sn_exact),
      close (1 / 1000%:R) Sn_exact Sn_rounded,
      (Phi *m mn_exact) 0 0 = 125%:R / 63%:R,
      `|(Phi *m mn_exact) 0 0 - 2%:R| <= 2%:R / 100%:R
    & (Phi *m mo) 0 0 = 0].
Proof.
split; first exact: first_update.
- by apply: close_arrays; split; rewrite ler_norml; apply/andP; split; lra.
- by entries; field.
- by entries; rewrite ler_norml; apply/andP; split; lra.
- by entries; rewrite /mb /mw; field.
Qed.

(** C4, the covariance as quoted: the update of the notebook is not within
    1 of [[0.962, -0.385], [-0.385, 0.558]] (its first entry is 20.04). *)
Lemma first_update_not_quoted :
  update seps (mo, So) Phi y = Some (mn_exact, Sn_exact) /\
  ~~ close 1 Sn_exact Sn_quoted.
Proof.
split; first exact: first_update.
by apply: far_arrays; rewrite ltNge ler_norml; apply/negP => /andP [_ h]; lra.
Qed.

End ExampleTheory.

(** ** A singular prior and a design row it does not see *)

Section DegenerateTheory.

Import Degenerate.

Lemma So_flat_neq0 : So != 0.
Proof.
apply/eqP => /matrixP /(_ (lift ord0 ord0) (lift ord0 ord0)).
by rewrite !mxE /= /sw expr1n => /eqP; rewrite oner_eq0.
Qed.

Lemma sym_psd_flat : sym_psd So.
Proof.
split; first by rewrite /symmetric; by_entries.
move=> x; rewrite /qform; entries; rewrite /sb /sw.
move: (x ord0 0) (x (lift ord0 ord0) 0) => p q.
have q2 : 0 <= q * q by rewrite -expr2 sqr_ge0.
by lra.
Qed.


(** C2, the strict inequality: the covariance diag(0, 1) is not the zero
    matrix, yet at the design row [1, 0] the predictive variance is
    exactly seps^2; and so it is at the zero vector for the identity
    covariance. *)
Lemma predict_var_not_above_noise :
  [/\ So != 0, sym_psd So,
      ~~ (seps ^+ 2 < (predict seps (mo, So) Phi_x).2 0 0)
    & ~~ (seps ^+ 2 < (predict seps (mo, 1%:M) Phi_zero).2 0 0)].
Proof.
split; [exact: So_flat_neq0 | exact: sym_psd_flat | |].
  rewrite -leNgt /predict /= /predict_var; entries.
  by rewrite /seps /sb /sw; lra.
rewrite -leNgt /predict /= /predict_var; entries.
by rewrite /seps; lra.
Qed.

End DegenerateTheory.

(** ** A prior that is not a multiple of the identity *)

Section SkewedTheory.

Import Skewed.

Lemma sym_pd_skewed : sym_pd So.
Proof. by apply: sym_pd_diag2; rewrite /sb /sw; lra. Qed.

Lemma skewed_update : update seps (mo, So) Phi y = Some (mn_exact, Sn_exact).
Proof.
have SoSi : So *m Si_exact = 1%:M by by_entries; rewrite /sb /sw; field.
have KKi : (Phi^T *m Phi + seps ^+ 2 *: Si_exact) *m Sn_exact = 1%:M.
  by by_entries; rewrite /seps; field.
rewrite (update_certificate _ _ SoSi KKi); congr (Some (_, _)).
  by by_entries; rewrite /seps; field.
by by_entries; rewrite /seps; field.
Qed.

(** C7, as stated: the prior diag(1, 4) is symmetric positive definite,
    x = [1, -1] is orthogonal to the only design row [1, 1], and the
    update shrinks x^T Sigma x from 5 to 7/2. *)
Lemma epistemic_term_shrinks :
  [/\ sym_pd So, Phi *m x_orth = 0,
      update seps (mo, So) Phi y = Some (mn_exact, Sn_exact),
      qform So x_orth = 5%:R
    & qform Sn_exact x_orth < qform So x_orth].
Proof.
have qSo : qform So x_orth = 5%:R.
  by rewrite /qform; entries; rewrite /sb /sw; field.
have qSn : qform Sn_exact x_orth = 7%:R / 2%:R.
  by rewrite /qform; entries; field.
split=> //; first exact: sym_pd_skewed.
- by by_entries; field.
- exact: skewed_update.
- by rewrite qSo qSn; lra.
Qed.

End SkewedTheory.

(** ** The guide: its site for the noise scale *)

Section GuideSupport.

Variable F : realFieldType.

Import Python Pyro.
Import String.

(** The distribution that the guide builds for its site "s",
    [Normal(s_loc, 0.05)], is valid whatever the parameters, and some
    value of the noise makes it draw s <= 0: a value in its support,
    outside the support of the prior [Uniform(0.01, 10.0)] of the model,
    and not a valid scale for the likelihood [Normal(x * w + b, s)], for
    any weights and input. *)
Lemma guide_s_leaves_prior_support (nu : params F) :
  exists eps_s : F, forall w0 b0 x : F,
    let s0 := rsample (guide_s nu) eps_s in
    [/\ valid_args (guide_s nu), support (guide_s nu) s0, s0 <= 0,
        ~~ support (model_s F) s0
      & ~~ valid_args (model_y x (Latents w0 b0 s0))].
Proof.
exists (- (s_loc nu + 1) * 20%:R) => w0 b0 x /=.
have Es : s_loc nu + - (s_loc nu + 1) * 20%:R * (5%:R / 100%:R) = - 1.
  by field.
rewrite Es; split=> //.
- by lra.
- by lra.
- by rewrite negb_and -!ltNge; apply/orP; left; lra.
- by rewrite -leNgt; lra.
Qed.

Lemma valid_guide_s (nu : params F) : valid_args (guide_s nu).
Proof. by rewrite /=; lra. Qed.

(** A sample statement with the keyword [constraint] raises, whatever the
    distribution and the noise. *)
Lemma sample_constraint (d : distribution F) (eps : F) :
  sample d [:: "constraint"%string] eps = Raise TypeError.
Proof. by []. Qed.

(** C10: no run of the guide draws a value for the site "s".  The
    statement of that site passes [constraint=constraints.positive] to
    [pyro.sample], and the call of the distribution raises [TypeError] on
    it: on valid scales for "w" and "b" (the values that their
    [pyro.param] statements, which do take the keyword, give) every run of
    the guide ends there, on every noise; on other scales it ends before,
    with [ValueError]. *)
Theorem guide_raises_TypeError (nu : params F) (eps : F * F * F) :
  guide nu eps =
  if valid_args (guide_w nu) && valid_args (guide_b nu)
  then Raise TypeError else Raise ValueError.
Proof.
rewrite /guide /construct valid_guide_s.
case: (valid_args (guide_w nu)) => //.
by case: (valid_args (guide_b nu)).
Qed.

(** On the initial values of the parameters. *)
Lemma guide_init_raises (eps : F * F * F) :
  guide (init_params F) eps = Raise TypeError.
Proof. by rewrite /guide /construct valid_guide_s /= !ltr01. Qed.

End GuideSupport.

(** ** The general statements on the numbers of the notebook *)

Section Instances.

Import Example.

Lemma design_row_neq0 : (row 0 Phi)^T != 0.
Proof.
apply/eqP => /matrixP /(_ ord0 ord0).
by rewrite !mxE /= => /eqP; rewrite oner_eq0.
Qed.

Lemma sym_pd_Sn_exact : sym_pd Sn_exact.
Proof. exact: (update_sym_pd sym_pd_So seps_gt0 first_update). Qed.

Lemma update_closed_form_witness :
  [/\ sym_pd (nb_So nb_init), 0 < seps ^+ 2
    & (update_cell seps Phi y nb_init).2 = Done].
Proof.
split; [exact: sym_pd_So | exact: seps_gt0 |].
have pdSo : sym_pd (nb_So nb_init) := sym_pd_So.
by have [_ _ _ ->] := update_closed_form Phi y pdSo seps_gt0.
Defined.

Lemma predict_mean_variance_witness :
  [/\ psd So, pd So, (row 0 Phi)^T != 0
    & seps ^+ 2 < (predict seps (mo, So) Phi).2 0 0].
Proof.
have [symSo pdSo] := sym_pd_So.
have [_ _ _ gt_noise] := predict_mean_variance seps mo So Phi 0.
split; [exact: pd_psd | exact: pdSo | exact: design_row_neq0 |].
exact: gt_noise pdSo design_row_neq0.
Defined.

Lemma batch_equals_rows_witness :
  [/\ sym_pd So, 0 < seps ^+ 2, perm_eq js_reversed (enum 'I_2)
    & exists2 st, update seps (mo, So) Phi_all y_all = Some st
        & update_rows seps Phi_all y_all js_reversed (mo, So) = Some st].
Proof.
split; [exact: sym_pd_So | exact: seps_gt0 | exact: perm_reversed2 |].
exact: (batch_equals_rows mo Phi_all y_all sym_pd_So seps_gt0 perm_reversed2).
Defined.

Lemma update_keeps_sym_psd_witness :
  [/\ sym_psd (nb_Sn nb_first), 0 < seps ^+ 2
    & sym_psd (nb_Sn (reupdate_cell seps Phi' y' nb_first).1)].
Proof.
have psdSn : sym_psd (nb_Sn nb_first) := sym_pd_psd sym_pd_Sn_exact.
split; [exact: psdSn | exact: seps_gt0 |].
by have [] := update_keeps_sym_psd Phi' y' psdSn seps_gt0.
Defined.

Lemma predict_var_nonincreasing_witness :
  [/\ sym_pd So, 0 < seps ^+ 2
    & exists2 st, update seps (mo, So) Phi y = Some st
        & sym_pd st.2 /\
          forall M (Phi_x : 'M[rat]_(M, 2)) i,
            (predict seps st Phi_x).2 i 0 <=
            (predict seps (mo, So) Phi_x).2 i 0].
Proof.
split; [exact: sym_pd_So | exact: seps_gt0 |].
exact: (predict_var_nonincreasing mo Phi y sym_pd_So seps_gt0).
Defined.

Lemma orth_first_observation : Phi *m So *m x_orth = 0.
Proof. by by_entries; rewrite /sb /sw; field. Qed.

Lemma epistemic_term_unchanged_witness :
  [/\ sym_pd So, 0 < seps ^+ 2, Phi *m So *m x_orth = 0
    & exists2 st, update seps (mo, So) Phi y = Some st
        & qform st.2 x_orth = qform So x_orth].
Proof.
split; [exact: sym_pd_So | exact: seps_gt0 | exact: orth_first_observation |].
have PSx := orth_first_observation.
exact: (epistemic_term_unchanged mo y sym_pd_So seps_gt0 PSx).
Defined.




End Instances.

(** ** Priors that are a multiple of the identity *)

Section Isotropic.

Variable F : realFieldType.
Variable P : nat.
Implicit Types (So : 'M[F]_P) (mo x : 'cV[F]_P) (seps c : F).

Lemma sym_pd_scalar c : 0 < c -> sym_pd (c%:M : 'M[F]_P).
Proof.
move=> c0; split; first by rewrite /symmetric tr_scalar_mx.
by move=> x xN0; rewrite qformE mul_scalar_mx dotZr mulr_gt0 // dot_gt0.
Qed.

Lemma update_rows_fixes N seps c (Phi : 'M[F]_(N, P)) (y : 'cV[F]_N) js x :
  0 < seps ^+ 2 -> Phi *m x = 0 ->
  forall mo So, sym_pd So -> So *m x = c *: x ->
  exists2 st, update_rows seps Phi y js (mo, So) = Some st
            & st.2 *m x = c *: x.
Proof.
move=> s0 Phix; elim: js => [|j js IH] mo So pdSo Sox; first by exists (mo, So).
have [[m1 S1] Est] :
    exists s1, update seps (mo, So) (row j Phi) (row j y) = Some s1.
  by rewrite updateE //; eexists.
have rSx : row j Phi *m So *m x = 0.
  by rewrite -mulmxA Sox -scalemxAr -row_mul Phix row0 scaler0.
have S1x : S1 *m x = c *: x by rewrite (update_fixes pdSo s0 Est rSx).
have [st Est' stx] := IH m1 S1 (update_sym_pd pdSo s0 Est) S1x.
by exists st => //; rewrite update_rows_cons Est.
Qed.

(** From a prior c I, a direction orthogonal to every row of the batch
    keeps its epistemic term c x^T x through the updates, row after row. *)
Lemma isotropic_prior_orthogonal N seps c mo (Phi : 'M[F]_(N, P))
    (y : 'cV[F]_N) js x :
  0 < c -> 0 < seps ^+ 2 -> Phi *m x = 0 ->
  exists2 st, update_rows seps Phi y js (mo, c%:M) = Some st
            & qform st.2 x = qform (c%:M) x.
Proof.
move=> c0 s0 Phix.
have [st Est stx] := update_rows_fixes y js s0 Phix mo (sym_pd_scalar c0)
                       (mul_scalar_mx c x).
by exists st => //; rewrite !qformE stx mul_scalar_mx.
Qed.

End Isotropic.

(** ** The second update of the notebook *)

Section SecondUpdate.

Import Example.

Lemma second_update :
  update seps (mn_exact, Sn_exact) Phi' y' = Some (mn_second, Sn_second).
Proof.
have SS : Sn_exact *m Sni_exact = 1%:M by by_entries; field.
have KK : (Phi'^T *m Phi' + seps ^+ 2 *: Sni_exact) *m Sn_second = 1%:M.
  by by_entries; rewrite /seps; field.
rewrite (update_certificate _ _ SS KK); congr (Some (_, _)).
  by by_entries; rewrite /seps; field.
by by_entries; rewrite /seps; field.
Qed.

Lemma notebook_cells :
  update_cell seps Phi y nb_init = (nb_first, Done) /\
  reupdate_cell seps Phi' y' nb_first = (nb_second, Done).
Proof.
rewrite /reupdate_cell /then_ /= !update_cellE /=.
by rewrite first_update second_update.
Qed.

(** Both observations in one batch give the same belief. *)
Lemma batch_update :
  update seps (mo, So) Phi_all y_all = Some (mn_second, Sn_second).
Proof.
have KK : (Phi_all^T *m Phi_all + seps ^+ 2 *: Si_exact) *m Sn_second = 1%:M.
  by by_entries; rewrite /seps; field.
rewrite (update_certificate _ _ So_Si KK); congr (Some (_, _)).
  by by_entries; rewrite /seps /mb /mw; field.
by by_entries; rewrite /seps; field.
Qed.

End SecondUpdate.

(** ** More on the update: its information form, batches, the density *)

Section UpdateAlgebra.

Variable F : realFieldType.
Variable P : nat.
Implicit Types (So : 'M[F]_P) (mo x theta : 'cV[F]_P) (seps : F).

Lemma update_total N seps mo So (Phi : 'M[F]_(N, P)) (y : 'cV[F]_N) :
  sym_pd So -> 0 < seps ^+ 2 ->
  exists st, update seps (mo, So) Phi y = Some st.
Proof. by move=> pdSo s0; rewrite updateE //; eexists. Qed.

(** X1: the update adds precisions: the inverse of the new covariance is
    the inverse of the old one plus Phi^T Phi / seps^2, and the
    precision-weighted mean gains Phi^T y / seps^2. *)
Theorem update_information_form N seps mo So (Phi : 'M[F]_(N, P))
    (y : 'cV[F]_N) :
  sym_pd So -> 0 < seps ^+ 2 ->
  exists2 st, update seps (mo, So) Phi y = Some st
    & invmx st.2 = invmx So + (seps ^+ 2)^-1 *: (Phi^T *m Phi) /\
      invmx st.2 *m st.1 = invmx So *m mo + (seps ^+ 2)^-1 *: (Phi^T *m y).
Proof.
move=> pdSo s0; have [st Est] := update_total mo Phi y pdSo s0.
exists st => //; split.
  exact: update_precision Est.
exact: update_information Est.
Qed.

(** X2: an update with no observation (a batch of zero rows) returns the
    belief it was given, for any invertible covariance. *)
Theorem update_empty_batch seps mo So (Phi : 'M[F]_(0, P)) (y : 'cV[F]_0) :
  So \in unitmx -> 0 < seps ^+ 2 ->
  update seps (mo, So) Phi y = Some (mo, So).
Proof.
move=> uSo s0; have us : seps ^+ 2 \is a GRing.unit by rewrite unitfE gt_eqF.
have uK : seps ^+ 2 *: invmx So \in unitmx by rewrite unitmxZ ?unitmx_inv.
rewrite update_SnE /Sn /linalg_inv uSo [Phi]flatmx0 mulmx0 add0r uK.
rewrite invmxZ // invmxK scalerA mulfV ?gt_eqF // scale1r.
by rewrite mulKVmx // trmx0 mul0mx mulmx0 scaler0 addr0.
Qed.

(** X3: two updates in a row are one update on the two batches stacked:
    the second cell of the notebook, run on the result of the first,
    gives the belief of a single update with both observations. *)
Theorem update_twice_is_stacked N1 N2 seps mo So (Phi1 : 'M[F]_(N1, P))
    (y1 : 'cV[F]_N1) (Phi2 : 'M[F]_(N2, P)) (y2 : 'cV[F]_N2) :
  sym_pd So -> 0 < seps ^+ 2 ->
  exists2 st,
    obind (fun s1 => update seps s1 Phi2 y2) (update seps (mo, So) Phi1 y1)
      = Some st
    & update seps (mo, So) (col_mx Phi1 Phi2) (col_mx y1 y2) = Some st.
Proof.
move=> pdSo s0; have [[m1 S1] E1] := update_total mo Phi1 y1 pdSo s0.
have pdS1 : sym_pd S1 := update_sym_pd pdSo s0 E1.
have [st2 E2] := update_total m1 Phi2 y2 pdS1 s0.
have [st E12] := update_total mo (col_mx Phi1 Phi2) (col_mx y1 y2) pdSo s0.
exists st2; first by rewrite E1.
rewrite E12; congr Some; apply: belief_inj.
- exact: pd_unitmx (update_sym_pd pdSo s0 E12).2.
- rewrite (update_precision pdSo s0 E12) (update_precision pdS1 s0 E2) /=.
  rewrite (update_precision pdSo s0 E1) /= tr_col_mx mul_row_col scalerDr.
  by rewrite addrA.
- rewrite (update_information pdSo s0 E12) (update_information pdS1 s0 E2) /=.
  rewrite (update_information pdSo s0 E1) /= tr_col_mx mul_row_col scalerDr.
  by rewrite addrA.
Qed.

End UpdateAlgebra.

(** ** The posterior density is the Gaussian of the update *)

Section Density.

Variable F : realFieldType.
Variable P : nat.
Implicit Types (So A : 'M[F]_P) (mo x theta : 'cV[F]_P) (seps : F).

Lemma dot_mulmx_rect N (Phi : 'M[F]_(N, P)) theta (z : 'cV[F]_N) :
  dot (Phi *m theta) z = dot theta (Phi^T *m z).
Proof. by rewrite /dot trmx_mul mulmxA. Qed.

Lemma qform_sub A x z : symmetric A ->
  qform A (x - z) = qform A x - 2 * dot x (A *m z) + qform A z.
Proof.
move=> symA; have := qform_lin2 x z 1 (- 1) symA.
rewrite scale1r scaleN1r => ->.
have -> : dot z (A *m x) = dot x (A *m z) by rewrite dot_mulmx symA dotC.
by ring.
Qed.

Lemma exponent_expand N seps mo So (Phi : 'M[F]_(N, P)) (y : 'cV[F]_N)
    theta :
  symmetric So ->
  exponent seps (mo, So) Phi y theta =
  qform (invmx So + (seps ^+ 2)^-1 *: (Phi^T *m Phi)) theta
  - 2 * dot theta (invmx So *m mo + (seps ^+ 2)^-1 *: (Phi^T *m y))
  + ((seps ^+ 2)^-1 * dot y y + qform (invmx So) mo).
Proof.
move=> /sym_inv symSi; rewrite /exponent /= qform_sub // qformD qformZ.
rewrite [dot theta (_ + _)]dotDr [dot theta (_ *: _)]dotZr.
set a := (seps ^+ 2)^-1.
have -> : dot (y - Phi *m theta) (y - Phi *m theta) =
          dot y y - 2 * dot theta (Phi^T *m y) + qform (Phi^T *m Phi) theta.
  rewrite dotDl !dotDr !dotNl !dotNr opprK dot_mulmx_rect.
  rewrite [dot y (Phi *m theta)]dotC dot_mulmx_rect.
  rewrite [dot (Phi *m theta) _]dot_mulmx_rect mulmxA -qformE.
  by ring.
by ring.
Qed.

(** X4: the density of the notebook, likelihood times prior, is the
    Gaussian that the update returns: its exponent is the quadratic form
    of the new precision around the new mean, up to a constant; hence the
    new mean is the one minimiser of that exponent (the regularised least
    squares, or MAP, estimate). *)
Theorem posterior_is_gaussian N seps mo So (Phi : 'M[F]_(N, P))
    (y : 'cV[F]_N) :
  sym_pd So -> 0 < seps ^+ 2 ->
  exists2 st, update seps (mo, So) Phi y = Some st
    & forall theta,
        [/\ exponent seps (mo, So) Phi y theta =
              qform (invmx st.2) (theta - st.1)
              + exponent seps (mo, So) Phi y st.1,
            exponent seps (mo, So) Phi y st.1
              <= exponent seps (mo, So) Phi y theta
          & exponent seps (mo, So) Phi y theta
              = exponent seps (mo, So) Phi y st.1 -> theta = st.1].
Proof.
move=> pdSo s0; have [st Est] := update_total mo Phi y pdSo s0.
have [symS1i pdS1i] := sym_pd_inv (update_sym_pd pdSo s0 Est).
have Eq theta : exponent seps (mo, So) Phi y theta =
    qform (invmx st.2) (theta - st.1) + exponent seps (mo, So) Phi y st.1.
  have symSo := pdSo.1.
  rewrite !exponent_expand // -(update_precision pdSo s0 Est).
  rewrite -(update_information pdSo s0 Est) qform_sub // [qform _ st.1]qformE.
  by ring.
exists st => // theta; split=> //.
  by rewrite (Eq theta) lerDr; apply: pd_psd.
move=> /eqP; rewrite (Eq theta) -subr_eq0 addrK => /eqP q0.
apply/eqP; rewrite -subr_eq0; apply: contraTT isT => dN0.
by have := pdS1i _ dN0; rewrite q0 ltxx.
Qed.

End Density.

(** ** The update in gain form *)

Section Gain.

Variable F : realFieldType.
Variable P : nat.
Implicit Types (So : 'M[F]_P) (mo x : 'cV[F]_P) (seps : F).

Lemma qform_conj N So (Phi : 'M[F]_(N, P)) (z : 'cV[F]_N) :
  qform (Phi *m So *m Phi^T) z = qform So (Phi^T *m z).
Proof. by rewrite /qform trmx_mul trmxK !mulmxA. Qed.

Lemma sym_pd_innovation N seps So (Phi : 'M[F]_(N, P)) :
  sym_pd So -> 0 < seps ^+ 2 ->
  sym_pd (seps ^+ 2 *: 1%:M + Phi *m So *m Phi^T).
Proof.
move=> [symSo pdSo] s0; split.
  rewrite /symmetric linearD linearZ /= trmx1 !trmx_mul trmxK symSo.
  by rewrite mulmxA.
rewrite addrC; apply: pdD; last first.
  by rewrite scalemx1; exact: (@sym_pd_scalar _ N _ s0).2.
by move=> z; rewrite qform_conj; apply: pd_psd.
Qed.

(** The update in the form that inverts the N x N matrix of the
    innovations instead of two P x P matrices. *)
Lemma update_gainE N seps mo So (Phi : 'M[F]_(N, P)) (y : 'cV[F]_N) :
  sym_pd So -> 0 < seps ^+ 2 ->
  update seps (mo, So) Phi y =
  Some (mo + So *m Phi^T
               *m invmx (seps ^+ 2 *: 1%:M + Phi *m So *m Phi^T)
               *m (y - Phi *m mo),
        So - So *m Phi^T
               *m invmx (seps ^+ 2 *: 1%:M + Phi *m So *m Phi^T)
               *m Phi *m So).
Proof.
move=> pdSo s0; set M := seps ^+ 2 *: 1%:M + Phi *m So *m Phi^T.
have uSo := pd_unitmx pdSo.2.
have uM : M \in unitmx := pd_unitmx (sym_pd_innovation Phi pdSo s0).2.
have sN0 : seps ^+ 2 != 0 by rewrite gt_eqF.
set Mi := invmx M.
have MMi : M *m Mi = 1%:M by rewrite mulmxV.
have PSP : Phi *m So *m Phi^T = M - seps ^+ 2 *: 1%:M by rewrite /M addrC addKr.
have EM k (X : 'M[F]_(N, k)) :
    Phi *m (So *m (Phi^T *m (Mi *m X))) = X - seps ^+ 2 *: (Mi *m X).
  rewrite !mulmxA PSP mulmxBl MMi -scalemxAl mul1mx mulmxBl mul1mx.
  by rewrite -scalemxAl.
pose Y := Phi^T *m (Mi *m (Phi *m So)).
pose S1 := So - So *m Y.
have -> : So - So *m Phi^T *m Mi *m Phi *m So = S1 by rewrite /S1 /Y !mulmxA.
have KSo : (Phi^T *m Phi + seps ^+ 2 *: invmx So) *m So =
           Phi^T *m (Phi *m So) + seps ^+ 2 *: 1%:M.
  by rewrite mulmxDl -scalemxAl mulVmx // mulmxA.
have KSoY : (Phi^T *m (Phi *m So) + seps ^+ 2 *: 1%:M) *m Y =
            Phi^T *m (Phi *m So).
  rewrite mulmxDl -scalemxAl mul1mx /Y -!mulmxA EM mulmxBr -scalemxAr.
  by rewrite subrK.
have KS1 : (Phi^T *m Phi + seps ^+ 2 *: invmx So) *m ((seps ^+ 2)^-1 *: S1)
           = 1%:M.
  rewrite -scalemxAr /S1 mulmxBr [_ *m (So *m Y)]mulmxA KSo KSoY.
  by rewrite addrC addKr scalerA mulVf // scale1r.
have ES1 : seps ^+ 2 *: ((seps ^+ 2)^-1 *: S1) = S1.
  by rewrite scalerA mulfV // scale1r.
rewrite (update_certificate mo y (mulmxV uSo) KS1) ES1; congr (Some (_, _)).
have S1Pt : S1 *m Phi^T = seps ^+ 2 *: (So *m Phi^T *m Mi).
  have PSP' : Phi *m (So *m Phi^T) = M - seps ^+ 2 *: 1%:M by rewrite mulmxA.
  rewrite /S1 /Y mulmxBl -!mulmxA PSP' mulmxBr mulVmx // -scalemxAr mulmx1.
  rewrite mulmxBr mulmx1 -scalemxAr mulmxBr -scalemxAr opprB addrC subrK.
  by rewrite !mulmxA.
rewrite [S1 *m (Phi^T *m y)]mulmxA S1Pt -scalemxAl scalerA mulVf // scale1r.
rewrite [S1 *m _]mulmxA /S1 mulmxBl mulmxV // mulmxBl mul1mx /Y.
rewrite -!mulmxA [So *m (invmx So *m _)]mulmxA mulmxV // mul1mx mulmxBr.
by rewrite !mulmxBr [LHS]addrAC addrA.
Qed.

(** X5: the update written with the N x N matrix
    M = seps^2 I + Phi So Phi^T and the gain G = So Phi^T M^-1: the new
    mean is the old one plus the gain times the residual y - Phi mo, the
    new covariance is So - G Phi So. *)
Theorem update_gain_form N seps mo So (Phi : 'M[F]_(N, P)) (y : 'cV[F]_N) :
  sym_pd So -> 0 < seps ^+ 2 ->
  let M := seps ^+ 2 *: 1%:M + Phi *m So *m Phi^T in
  let G := So *m Phi^T *m invmx M in
  M \in unitmx /\
  update seps (mo, So) Phi y =
  Some (mo + G *m (y - Phi *m mo), So - G *m Phi *m So).
Proof.
move=> pdSo s0 M G; split.
  exact: pd_unitmx (sym_pd_innovation Phi pdSo s0).2.
exact: update_gainE.
Qed.

End Gain.

(** ** What an update does to residuals and to the epistemic term *)

Section Shrinkage.

Variable F : realFieldType.
Variable P : nat.
Implicit Types (So : 'M[F]_P) (mo x : 'cV[F]_P) (seps : F).

Lemma qformB n (A B : 'M[F]_n) z : qform (A - B) z = qform A z - qform B z.
Proof. by rewrite !qformE mulmxBl dotDr dotNr. Qed.

Lemma pd_qform_gt0 n (A : 'M[F]_n) z : pd A -> (0 < qform A z) = (z != 0).
Proof.
move=> pdA; have [->|zN0] := eqVneq z 0; last exact: pdA.
by rewrite qformE mulmx0 dot0r ltxx.
Qed.

Lemma quad_bound (a q p t : F) :
  0 < a -> 0 <= q -> 0 <= p -> 0 <= t ->
  p + a^-1 * (q ^+ 2 + t) = q -> q <= a.
Proof.
move=> a0 q0 p0 t0 Eq; rewrite leNgt; apply/negP => qa.
have ai0 : 0 < a^-1 by rewrite invr_gt0.
have h1 : 0 <= a^-1 * t by rewrite mulr_ge0 // ltW.
have h2 : a * q < q * q by rewrite ltr_pM2r // (lt_le_trans a0) // ltW.
have h3 : a^-1 * (a * q) < a^-1 * (q * q) by rewrite ltr_pM2l.
have h4 : a^-1 * (a * q) = q by rewrite mulrA mulVf ?mul1r // gt_eqF.
by move: Eq; rewrite mulrDr expr2 => Eq; lra.
Qed.

(** X6: one observation (Phi a single row, the way the notebook feeds the
    data) moves the prediction at the observed input towards the target
    and never past it: the residual y - Phi mn is the residual
    y - Phi mo times seps^2 / (seps^2 + Phi So Phi^T), a factor in (0, 1]. *)
Theorem residual_shrinks seps mo So (Phi : 'rV[F]_P) (y : 'cV[F]_1) :
  sym_pd So -> 0 < seps ^+ 2 ->
  let c := seps ^+ 2 / (seps ^+ 2 + qform So Phi^T) in
  exists2 st, update seps (mo, So) Phi y = Some st
    & [/\ 0 < c, c <= 1
        & (y - Phi *m st.1) 0 0 = c * (y - Phi *m mo) 0 0].
Proof.
move=> pdSo s0 c; have Est := update_gainE mo Phi y pdSo s0.
have uM := pd_unitmx (sym_pd_innovation Phi pdSo s0).2.
move: uM Est; set M := _ + _; set Mi := invmx M => uM Est.
have s_ge0 : 0 <= qform So Phi^T by apply: pd_psd pdSo.2 _.
have m0 : 0 < seps ^+ 2 + qform So Phi^T by apply: ltr_wpDr.
eexists; first exact: Est.
split=> /=; first by rewrite divr_gt0.
  by rewrite ler_pdivrMr // mul1r lerDl.
have EM : M = (seps ^+ 2 + qform So Phi^T)%:M.
  rewrite [M]mx11_scalar /M mxE [X in (X + _)%:M]mxE.
  rewrite [X in (_ * X + _)%:M]mxE eqxx.
  by rewrite mulr1n mulr1 /qform trmxK.
have -> : y - Phi *m (mo + So *m Phi^T *m Mi *m (y - Phi *m mo)) =
          seps ^+ 2 *: (Mi *m (y - Phi *m mo)).
  set r := y - Phi *m mo; rewrite mulmxDr opprD addrA -/r !mulmxA.
  have -> : Phi *m So *m Phi^T = M - seps ^+ 2 *: 1%:M by rewrite /M addrC addKr.
  rewrite mulmxBl mulmxV // -scalemxAl mul1mx mulmxBl mul1mx opprB addrC subrK.
  by rewrite -scalemxAl.
by rewrite /Mi EM invmx_scalar mul_scalar_mx !mxE /c mulrA.
Qed.

(** X7: the update strictly lowers the epistemic term x^T Sigma x exactly
    in the directions x with Phi So x != 0 (and leaves it unchanged in the
    others). *)
Theorem epistemic_term_strict N seps mo So (Phi : 'M[F]_(N, P))
    (y : 'cV[F]_N) :
  sym_pd So -> 0 < seps ^+ 2 ->
  exists2 st, update seps (mo, So) Phi y = Some st
    & forall x, (qform st.2 x < qform So x) = (Phi *m So *m x != 0).
Proof.
move=> pdSo s0; have Est := update_gainE mo Phi y pdSo s0.
have [_ pdMi] := sym_pd_inv (sym_pd_innovation Phi pdSo s0).
eexists; first exact: Est.
move=> x /=; rewrite qformB -subr_gt0 opprB addrC subrK.
rewrite -(pd_qform_gt0 _ pdMi); congr (0 < _).
by rewrite /qform !trmx_mul pdSo.1 !mulmxA.
Qed.

(** X8: after an update, the epistemic term at every input of the batch
    is at most the noise variance, so the predictive variance there is at
    most twice the noise variance, whatever the prior was. *)
Theorem predict_var_at_observed N seps mo So (Phi : 'M[F]_(N, P))
    (y : 'cV[F]_N) :
  sym_pd So -> 0 < seps ^+ 2 ->
  exists2 st, update seps (mo, So) Phi y = Some st
    & forall i, (predict seps st Phi).2 i 0 <= 2 * seps ^+ 2.
Proof.
move=> pdSo s0; have [st Est] := update_total mo Phi y pdSo s0.
exists st => // i; rewrite /predict /= predict_varE.
have pdS1 := update_sym_pd pdSo s0 Est; have uS1 := pd_unitmx pdS1.2.
set x := (row i Phi)^T; set u := st.2 *m x.
have q_ge0 : 0 <= qform st.2 x by apply: pd_psd pdS1.2 _.
have qE : qform st.2 x = dot x u by rewrite qformE.
have Au : invmx st.2 *m u = x by rewrite /u mulKmx.
have Pu : (Phi *m u) i 0 = dot x u.
  by rewrite /dot /x trmxK -row_mul [RHS]mxE.
have : qform (invmx st.2) u = dot x u by rewrite qformE Au dotC.
rewrite (update_precision pdSo s0 Est) qformD qformZ qform_gram.
rewrite (bigD1 i) //= Pu -qE => Eq.
have Si_ge0 : 0 <= qform (invmx So) u by apply: pd_psd (pd_inv pdSo.2) _.
have rest_ge0 : 0 <= \sum_(j < N | j != i) (Phi *m u) j 0 ^+ 2.
  by apply: sumr_ge0 => j _; rewrite sqr_ge0.
suff : qform st.2 x <= seps ^+ 2 by move=> ?; lra.
exact: (quad_bound s0 q_ge0 Si_ge0 rest_ge0 Eq).
Qed.

End Shrinkage.

(** ** The plotted band *)

Section PriorAndBand.

Variable F : realFieldType.
Implicit Types (S : 'M[F]_2) (m : 'cV[F]_2) (seps sb sw : F).

Lemma design_row M (x_test : 'cV[F]_M) i :
  (row i (design x_test))^T = np_vector 2 [:: 1; x_test i 0].
Proof. by apply/matrixP; elim/ord2_ind; elim/ord1_ind; rewrite !mxE. Qed.

Lemma qform2 S (p q : F) :
  symmetric S ->
  qform S (np_vector 2 [:: p; q]) =
  S ord0 ord0 * p ^+ 2 + 2 * S ord0 (lift ord0 ord0) * p * q
  + S (lift ord0 ord0) (lift ord0 ord0) * q ^+ 2.
Proof.
move=> /matrixP /(_ ord0 (lift ord0 ord0)); rewrite mxE => S10.
by rewrite /qform; entries; rewrite S10; ring.
Qed.

(** X10: on the design rows [[1, x]] of the plotted band, the mean is
    the line that the sampling cells draw for the parameters [mn] (bias
    [mn[0]], weight [mn[1]]), and the variance is a parabola in x:
    seps^2 + S00 + 2 S01 x + S11 x^2, which grows with the distance of x
    from its vertex -S01/S11. *)
Theorem band_shape M seps m S (x_test : 'cV[F]_M) i j :
  symmetric S -> 0 < S (lift ord0 ord0) (lift ord0 ord0) ->
  let S00 := S ord0 ord0 in
  let S01 := S ord0 (lift ord0 ord0) in
  let S11 := S (lift ord0 ord0) (lift ord0 ord0) in
  let var := predict_var seps (design x_test) S in
  [/\ predict_mean (design x_test) m = sampled_line m x_test,
      var i 0 = seps ^+ 2 + S00 + 2 * S01 * x_test i 0
                + S11 * x_test i 0 ^+ 2
    & `|x_test i 0 + S01 / S11| <= `|x_test j 0 + S01 / S11| ->
      var i 0 <= var j 0].
Proof.
move=> symS S11_gt0 S00 S01 S11 var.
have varE k : var k 0 = seps ^+ 2 + S00 + 2 * S01 * x_test k 0
                        + S11 * x_test k 0 ^+ 2.
  by rewrite /var predict_varE design_row qform2 // /S00 /S01 /S11; ring.
split=> //.
  apply/colP => k; rewrite /sampled_line /linear_layer /predict_mean.
  by rewrite !(mxE, big_ord_recl, big_ord0) /=; ring.
move=> le_dist; rewrite !varE.
have c_eq : S11 * (S01 / S11) = S01 by rewrite mulrC divfK // gt_eqF.
move: le_dist c_eq; set c := S01 / S11 => le_dist c_eq.
have sq_le : (x_test i 0 + c) ^+ 2 <= (x_test j 0 + c) ^+ 2.
  by rewrite -[leLHS]real_normK ?num_real // -[leRHS]real_normK ?num_real //
             ler_sqr ?nnegrE.
have : 0 <= S11 * ((x_test j 0 + c) ^+ 2 - (x_test i 0 + c) ^+ 2).
  by rewrite mulr_ge0 ?subr_ge0 // ltW.
move: (x_test i 0) (x_test j 0) c_eq => p q c_eq.
have -> : S11 * ((q + c) ^+ 2 - (p + c) ^+ 2) =
          S11 * q ^+ 2 + 2 * (S11 * c) * q - S11 * p ^+ 2 - 2 * (S11 * c) * p.
  by ring.
by rewrite c_eq => ?; lra.
Qed.

End PriorAndBand.

(** ** What the loop over [epoch_loss] records *)

Section TrainingLoops.

Import Training.
Import String.

Variable F : realFieldType.
Variable store : Type.
Variable svi_step : store -> F * store.

Lemma iota0S n : iota 0 n.+1 = rcons (iota 0 n) n.
Proof. by rewrite -addn1 iotaD /= cats1. Qed.

Lemma last_redrawS p m : (0 < p)%N ->
  last_redraw p m.+1 = if (m %% p == 0)%N then m else last_redraw p m.
Proof.
move=> p0; rewrite /last_redraw /=; case: ifP => [/eqP mp|].
  by rewrite [in RHS](divn_eq m p) mp addn0.
case: m => [|m]; first by rewrite mod0n.
by rewrite /= divnS // /dvdn => ->.
Qed.

Lemma set_nth_cat_cons (L R : seq F) (x v : F) :
  set_nth 0 (L ++ x :: R) (size L) v = L ++ v :: R.
Proof. by elim: L => [|z L IH] //=; rewrite IH. Qed.

(** The normalised loss of step [j]. *)
Let norm_loss (len_x : nat) (s0 : store) (j : nat) : F :=
  loss_at svi_step s0 j / len_x%:R.

(** X11: after [m] iterations of the loop over [epoch_loss], its first
    [m] entries are the losses of the steps 0..m-1 divided by
    [len(x_torch)] and the rest is still zero; the curve drawn last
    shows exactly the entries below the last multiple of ten before
    [m]: values already computed, never a zero placeholder. *)
Theorem epoch_loss_filled len_x n m s0 :
  (0 < len_x)%N -> (m <= n)%N ->
  epoch_loop svi_step len_x m (epoch_state0 F n s0) =
  Some (EpochState (store_after svi_step m s0)
          ([seq norm_loss len_x s0 j | j <- iota 0 m] ++ nseq (n - m) 0)
          (if m is 0 then Line2D [::] [::]
           else Line2D (iota 0 (last_redraw 10 m))
                  [seq norm_loss len_x s0 j | j <- iota 0 (last_redraw 10 m)])).
Proof.
move=> len0; elim: m => [|m IH] le_m; first by rewrite /epoch_loop /= subn0.
rewrite /epoch_loop iota0S foldl_rcons -/(epoch_loop _ _ _ _) IH ?(ltnW le_m) //=.
rewrite /epoch_step /=; case E: (svi_step _) => [loss s'] /=.
have lenF : (len_x == 0%N) = false by apply/negbTE; rewrite -lt0n.
rewrite /per_example lenF /setitem_array size_cat size_map size_iota.
have le_m' : (m <= n)%N := ltnW le_m.
rewrite size_nseq (subnKC le_m') le_m.
have -> : (n - m = (n - m.+1).+1)%N by rewrite subnS prednK // subn_gt0.
set L := [seq norm_loss len_x s0 j | j <- iota 0 m].
have sL : size L = m by rewrite size_map size_iota.
rewrite -[X in set_nth _ _ X]sL /= set_nth_cat_cons /=.
have -> : loss / len_x%:R = norm_loss len_x s0 m.
  by rewrite /norm_loss /loss_at E.
rewrite map_rcons -cats1 -catA /= -/L last_redrawS //.
case: ifP => m10; first by rewrite take_size_cat.
by rewrite /L; case: m {IH le_m le_m' E L sL} m10.
Qed.

End TrainingLoops.

(** ** The split of the data and the votes of the sampled classifiers *)

Section Split.

Import Classifier.

Lemma getitems_nth (T : Type) (x0 : T) (a : seq T) (idx : seq nat) :
  all (fun i => (i < size a)%N) idx ->
  getitems a idx = Some [seq nth x0 a i | i <- idx].
Proof.
rewrite /getitems => in_range; rewrite in_range; congr Some.
elim: idx in_range => [|i idx IH] //= /andP [i_lt /IH ->].
by rewrite /getitem (nth_map x0).
Qed.

Lemma perm_iota_in_range (idx : seq nat) n :
  perm_eq idx (iota 0 n) -> all (fun i => (i < n)%N) idx.
Proof.
move=> /perm_all ->; apply/allP => i.
by rewrite mem_iota add0n.
Qed.

(** X13: when [idx] is a permutation of the row numbers, the four
    indexings of the split succeed, the training and test examples
    together are the data set (every example once, each row still with its
    own label), the training set has [cut] rows (all of them when [cut]
    is larger), and no row number is on both sides. *)
Theorem split_is_partition (T : eqType) (X : seq T) (y : seq nat)
    (idx : seq nat) (cut : nat) :
  perm_eq idx (iota 0 (size X)) -> size y = size X ->
  exists xtr ytr xte yte,
    [/\ train_test_split X y idx cut
          = (Some xtr, Some ytr, Some xte, Some yte),
        perm_eq (zip xtr ytr ++ zip xte yte) (zip X y),
        size xtr = minn cut (size X), size xte = (size X - cut)%N
      & ~~ has (mem (take cut idx)) (drop cut idx)].
Proof.
move=> perm_idx size_y.
have in_X := perm_iota_in_range perm_idx.
have in_y : all (fun i => (i < size y)%N) idx by rewrite size_y.
have size_idx : size idx = size X by rewrite (perm_size perm_idx) size_iota.
have uniq_idx : uniq idx by rewrite (perm_uniq perm_idx) iota_uniq.
have [inX1 inX2] : all (fun i => (i < size X)%N) (take cut idx) /\
                   all (fun i => (i < size X)%N) (drop cut idx).
  by apply/andP; rewrite -all_cat cat_take_drop.
have [iny1 iny2] : all (fun i => (i < size y)%N) (take cut idx) /\
                   all (fun i => (i < size y)%N) (drop cut idx).
  by apply/andP; rewrite -all_cat cat_take_drop.
case: X => [|x0 X'] in perm_idx size_y in_X size_idx inX1 inX2 *.
  move: size_idx size_y => /size0nil -> /size0nil ->.
  by exists [::], [::], [::], [::].
set X := x0 :: X' in perm_idx size_y in_X size_idx inX1 inX2 *.
exists [seq nth x0 X i | i <- take cut idx], [seq nth 0%N y i | i <- take cut idx],
       [seq nth x0 X i | i <- drop cut idx], [seq nth 0%N y i | i <- drop cut idx].
split.
- by rewrite /train_test_split !(getitems_nth x0) // !(getitems_nth 0%N).
- rewrite !zip_map -map_cat cat_take_drop.
  have -> : zip X y = [seq (nth x0 X i, nth 0%N y i) | i <- iota 0 (size X)].
    rewrite -zip_map !map_nth_iota0 ?size_y // take_size.
    by rewrite -size_y take_size.
  exact: perm_map.
- by rewrite size_map size_take_min size_idx.
- by rewrite size_map size_drop size_idx.
- by move: uniq_idx; rewrite -{1}(cat_take_drop cut idx) cat_uniq => /and3P [].
Qed.

End Split.

Section Votes.

Import Classifier.

Variables (S Np : nat).
Implicit Types (obs : 'M[nat]_(S, Np)) (p : 'M[nat]_(Np, 3)).

Lemma one_vote (l : nat) : (l < 3)%N ->
  (\sum_(c < 3) nat_of_bool (l == c :> nat) = 1)%N.
Proof. by rewrite !big_ord_recl big_ord0 /=; case: l => [|[|[|l]]]. Qed.

(** X14: the votes [one_hot(obs, 3).sum(dim=0)] exist exactly when every
    label is below 3; then at every point of the grid the three counts
    add up to the number of samples, the class picked by [argmax] has the
    most votes and at least a third of them, and with 100 samples the
    frequencies [p / 100.] add up to one. *)
Theorem class_votes_spec obs :
  match class_votes obs with
  | Some p =>
      (forall s j, (obs s j < 3)%N) /\
      forall j,
        [/\ (\sum_(c < 3) p j c = S)%N,
            forall c, (p j c <= p j (argmax_dim1 p j))%N,
            (S <= 3 * p j (argmax_dim1 p j))%N
          & S = 100%N -> \sum_(c < 3) class_frequencies p j c = 1]
  | None => exists s j, (3 <= obs s j)%N
  end.
Proof.
rewrite /class_votes /one_hot; case: ifP => [/forallP valid|/negbT] /=.
  have valid' s j : (obs s j < 3)%N by move/forallP: (valid s).
  split=> // j; set p := (X in argmax_dim1 X).
  have sum_p : (\sum_(c < 3) p j c = S)%N.
    under eq_bigr do rewrite mxE.
    rewrite exchange_big /= -[RHS]card_ord -sum1_card.
    by apply: eq_bigr => s _; under eq_bigr do rewrite mxE; rewrite one_vote.
  have max_p c : (p j c <= p j (argmax_dim1 p j))%N.
    by rewrite /argmax_dim1; case: arg_maxnP => // c' _; apply.
  split=> //.
    rewrite -[X in (X <= _)%N]sum_p -[X in (_ <= X * _)%N]card_ord.
    by rewrite -sum_nat_const; apply: leq_sum.
  move=> S100; rewrite /class_frequencies.
  under eq_bigr do rewrite mxE.
  by rewrite -mulr_suml -natr_sum sum_p S100 divff.
rewrite negb_forall => /existsP [s]; rewrite negb_forall => /existsP [j].
by rewrite -leqNgt; exists s, j.
Qed.

End Votes.


(** ** The model on its own prior draws *)

Section ModelSupport.

Variable F : realFieldType.

Import Pyro.

(** X15: a draw of the site "s" from the prior of the model, on any noise
    of the unit interval, lies in the support [0.01, 10] of that prior and
    is a valid scale of the likelihood [Normal(x * w + b, s)], whatever
    the weights and the input: on its own prior the model never builds an
    invalid distribution. *)
Theorem model_prior_draw_valid (eps_s w0 b0 x : F) :
  0 <= eps_s <= 1 ->
  let th := Latents w0 b0 (rsample (model_s F) eps_s) in
  [/\ valid_args (model_s F), support (model_s F) (s th)
    & valid_args (model_y x th)].
Proof.
move=> /andP [eps_ge0 eps_le1] /=; split; first by lra.
- by apply/andP; split; nra.
- by nra.
Qed.

End ModelSupport.

(** ** The further statements on the numbers of the notebook *)

Section MoreInstances.

Import Example.

Lemma update_information_form_witness :
  [/\ sym_pd So, 0 < seps ^+ 2
    & exists2 st, update seps (mo, So) Phi y = Some st
        & invmx st.2 = invmx So + (seps ^+ 2)^-1 *: (Phi^T *m Phi) /\
          invmx st.2 *m st.1
            = invmx So *m mo + (seps ^+ 2)^-1 *: (Phi^T *m y)].
Proof.
split; [exact: sym_pd_So | exact: seps_gt0 |].
exact: (update_information_form mo Phi y sym_pd_So seps_gt0).
Defined.

Lemma update_empty_batch_witness :
  [/\ So \in unitmx, 0 < seps ^+ 2
    & update seps (mo, So) (0 : 'M[rat]_(0, 2)) (0 : 'cV[rat]_0)
        = Some (mo, So)].
Proof.
have uSo : So \in unitmx := pd_unitmx sym_pd_So.2.
split; [exact: uSo | exact: seps_gt0 |].
exact: (update_empty_batch mo 0 0 uSo seps_gt0).
Defined.

Lemma update_twice_is_stacked_witness :
  [/\ sym_pd So, 0 < seps ^+ 2
    & exists2 st,
        obind (fun s1 => update seps s1 Phi' y') (update seps (mo, So) Phi y)
          = Some st
        & update seps (mo, So) (col_mx Phi Phi') (col_mx y y') = Some st].
Proof.
split; [exact: sym_pd_So | exact: seps_gt0 |].
exact: (update_twice_is_stacked mo Phi y Phi' y' sym_pd_So seps_gt0).
Defined.

Lemma posterior_is_gaussian_witness :
  [/\ sym_pd So, 0 < seps ^+ 2
    & exists2 st, update seps (mo, So) Phi y = Some st
        & exponent seps (mo, So) Phi y st.1
            <= exponent seps (mo, So) Phi y mo].
Proof.
split; [exact: sym_pd_So | exact: seps_gt0 |].
have [st Est min_st] := posterior_is_gaussian mo Phi y sym_pd_So seps_gt0.
by exists st => //; have [] := min_st mo.
Defined.

Lemma update_gain_form_witness :
  [/\ sym_pd So, 0 < seps ^+ 2
    & seps ^+ 2 *: 1%:M + Phi *m So *m Phi^T \in unitmx].
Proof.
split; [exact: sym_pd_So | exact: seps_gt0 |].
by have [] := update_gain_form mo Phi y sym_pd_So seps_gt0.
Defined.

Lemma residual_shrinks_witness :
  [/\ sym_pd So, 0 < seps ^+ 2
    & seps ^+ 2 / (seps ^+ 2 + qform So Phi^T) <= 1].
Proof.
split; [exact: sym_pd_So | exact: seps_gt0 |].
by have [st _ []] := residual_shrinks mo Phi y sym_pd_So seps_gt0.
Defined.

Lemma epistemic_term_strict_witness :
  [/\ sym_pd So, 0 < seps ^+ 2
    & exists2 st, update seps (mo, So) Phi y = Some st
        & (qform st.2 x_orth < qform So x_orth) = (Phi *m So *m x_orth != 0)].
Proof.
split; [exact: sym_pd_So | exact: seps_gt0 |].
have [st Est strict] := epistemic_term_strict mo Phi y sym_pd_So seps_gt0.
by exists st.
Defined.

Lemma predict_var_at_observed_witness :
  [/\ sym_pd So, 0 < seps ^+ 2
    & exists2 st, update seps (mo, So) Phi y = Some st
        & (predict seps st Phi).2 0 0 <= 2 * seps ^+ 2].
Proof.
split; [exact: sym_pd_So | exact: seps_gt0 |].
have [st Est le2] := predict_var_at_observed mo Phi y sym_pd_So seps_gt0.
by exists st.
Defined.

Lemma So_slope_var_gt0 : 0 < So (lift ord0 ord0) (lift ord0 ord0).
Proof. by rewrite /So /sb /sw !mxE /=; lra. Qed.

Lemma band_shape_witness :
  [/\ symmetric So, 0 < So (lift ord0 ord0) (lift ord0 ord0)
    & predict_mean (design x_orth) mo = sampled_line mo x_orth].
Proof.
split; [exact: sym_pd_So.1 | exact: So_slope_var_gt0 |].
by have [] := band_shape seps mo x_orth ord0 ord0 sym_pd_So.1 So_slope_var_gt0.
Defined.

Lemma model_prior_draw_valid_witness :
  0 <= (1 / 2%:R : rat) <= 1 /\
  Pyro.valid_args
    (Pyro.model_y 3%:R
       (Pyro.Latents 0 0 (Pyro.rsample (Pyro.model_s rat) (1 / 2%:R)))).
Proof.
have in_unit : 0 <= (1 / 2%:R : rat) <= 1 by lra.
split; first exact: in_unit.
by have [] := model_prior_draw_valid 0 0 3%:R in_unit.
Defined.

Lemma epoch_loss_filled_witness :
  [/\ (0 < 2)%N, (2 <= 3)%N
    & omap (@Training.epoch_loss rat nat)
        (Training.epoch_loop (fun s : nat => (s%:R : rat, s.+1)) 2 2
           (Training.epoch_state0 rat 3 0%N))
      = Some [:: 0 / 2%:R; 1 / 2%:R; 0]].
Proof.
have len_gt0 : (0 < 2)%N by [].
have m_le_n : (2 <= 3)%N by [].
split; [exact: len_gt0 | exact: m_le_n |].
by rewrite (epoch_loss_filled (fun s : nat => (s%:R : rat, s.+1)) 0%N
              len_gt0 m_le_n).
Defined.

Lemma split_is_partition_witness :
  [/\ perm_eq [:: 2; 0; 1]%N (iota 0 (size [:: 10; 20; 30]%N)),
      size [:: 0; 1; 2]%N = size [:: 10; 20; 30]%N
    & exists xtr ytr xte yte : seq nat,
        Classifier.train_test_split [:: 10; 20; 30]%N [:: 0; 1; 2]%N
          [:: 2; 0; 1]%N 2
        = (Some xtr, Some ytr, Some xte, Some yte)].
Proof.
have perm_idx : perm_eq [:: 2; 0; 1]%N (iota 0 (size [:: 10; 20; 30]%N)) by [].
have size_y : size [:: 0; 1; 2]%N = size [:: 10; 20; 30]%N by [].
split; [exact: perm_idx | exact: size_y |].
have [xtr [ytr [xte [yte [E _ _ _ _]]]]] :=
  @split_is_partition nat [:: 10; 20; 30]%N [:: 0; 1; 2]%N _ 2 perm_idx size_y.
by exists xtr, ytr, xte, yte.
Defined.

End MoreInstances.

(** ** What the loop over the parameters records, and where it stops *)

Section RecordingLoop.

Import Python Training.
Import String.

Variable F : realFieldType.
Variable store : Type.
Variable svi_step : store -> result F * store.
Variable param_item : string -> store -> F.

Lemma record_loopS n st :
  record_loop svi_step param_item n.+1 st =
  if (record_loop svi_step param_item n st).2 is Some _
  then record_loop svi_step param_item n st
  else record_step svi_step param_item n
         (record_loop svi_step param_item n st).1.
Proof. by rewrite /record_loop iota0S foldl_rcons. Qed.

(** Once an exception has left the loop, further iterations do not run. *)
Lemma record_loop_raised n k st st' e :
  (k <= n)%N ->
  record_loop svi_step param_item k st = (st', Some e) ->
  record_loop svi_step param_item n st = (st', Some e).
Proof.
move=> /subnKC <- raised; elim: (n - k)%N => [|m IH]; first by rewrite addn0.
by rewrite addnS record_loopS IH.
Qed.

(** One iteration whose step returns, on a dict that holds the six keys
    and on six lines: no [KeyError], no [IndexError]. *)
Lemma record_step_returns k s l s' (vals : string -> seq F)
    (ls : seq (line2d F)) :
  svi_step s = (Return l, s') -> size ls = 6 ->
  let new name :=
    if String.eqb name "ELBO"%string then l else param_item name s' in
  record_step svi_step param_item k
    (LoopState s [seq (name, vals name) | name <- param_names] ls) =
  (LoopState s'
     [seq (name, rcons (vals name) (new name)) | name <- param_names]
     (if (k %% 100 == 0)%N
      then [seq Line2D (iota 0 k) (take k (rcons (vals name) (new name)))
           | name <- param_names]
      else ls), None).
Proof.
move=> E; case: ls => [|l1 [|l2 [|l3 [|l4 [|l5 [|l6 [|l7 ls]]]]]]] // _.
by rewrite /record_step /= E /=; case: ifP.
Qed.

(** One iteration whose step raises: the dict and the lines stay. *)
Lemma record_step_raises k s e s' (vals : string -> seq F)
    (ls : seq (line2d F)) :
  svi_step s = (Raise e, s') ->
  record_step svi_step param_item k
    (LoopState s [seq (name, vals name) | name <- param_names] ls) =
  (LoopState s' [seq (name, vals name) | name <- param_names] ls, Some e).
Proof. by move=> E; rewrite /record_step /= E. Qed.

Variables (loss : nat -> F) (stores : nat -> store).

Lemma record_loop_returns k :
  (forall j, (j < k)%N ->
     svi_step (stores j) = (Return (loss j), stores j.+1)) ->
  record_loop svi_step param_item k
    (LoopState (stores 0) (param_evolution0 F) (lines0 F)) =
  (recorded_state param_item loss stores k, None).
Proof.
elim: k => [|k IH] steps //.
have before j : (j < k)%N ->
    svi_step (stores j) = (Return (loss j), stores j.+1).
  by move=> lt_j; apply: steps; apply: ltnW.
rewrite record_loopS (IH before); cbn [fst snd]; rewrite /recorded_state iota0S.
have s6 : size (if k is 0 then lines0 F
                else [seq Line2D (iota 0 (last_redraw 100 k))
                        [seq recorded param_item loss stores name j
                        | j <- iota 0 (last_redraw 100 k)]
                     | name <- param_names]) = 6 by case: (k).
rewrite (record_step_returns k _ (steps k (ltnSn k)) s6) last_redrawS //.
congr (LoopState _ _ _, _).
  by rewrite /= !map_rcons.
case: ifP => k100; last by case: (k) k100.
by rewrite /= -!cats1 !take_size_cat ?size_map ?size_iota.
Qed.

(** X12: as long as the steps return, the loop records what they give:
    after [k] such iterations every list of [param_evolution] has [k]
    entries, the losses under "ELBO" and, under each parameter name, the
    value of that parameter after the same step, and the six lines hold
    [range(r)] against the first [r] recorded values, [r] the last
    multiple of 100 before [k].  The loop itself raises nothing.  The
    first step that raises ends the loop with its exception, whatever the
    number of iterations asked for, and leaves the lists and the lines as
    the [k] iterations before had them. *)
Theorem param_evolution_recorded k :
  (forall j, (j < k)%N ->
     svi_step (stores j) = (Return (loss j), stores j.+1)) ->
  record_loop svi_step param_item k
    (LoopState (stores 0) (param_evolution0 F) (lines0 F)) =
  (recorded_state param_item loss stores k, None) /\
  forall e s' n,
    svi_step (stores k) = (Raise e, s') -> (k < n)%N ->
    record_loop svi_step param_item n
      (LoopState (stores 0) (param_evolution0 F) (lines0 F)) =
    (LoopState s'
       (param_evolution (recorded_state param_item loss stores k))
       (lines (recorded_state param_item loss stores k)), Some e).
Proof.
move=> steps; have done_k := record_loop_returns steps.
split=> // e s' n raises lt_n; apply: (record_loop_raised lt_n).
rewrite record_loopS done_k; cbn [fst snd]; rewrite /recorded_state.
exact: record_step_raises.
Qed.

End RecordingLoop.

(** ** The recording loop on the hand-written guide *)

Section RecordingOnGuide.

Import Python Pyro Training.
Import String.

Variable F : realFieldType.
Variable store : Type.
Variable params_of : store -> params F.
Variable noise : store -> F * F * F.
Variable finish : store -> latents F -> F * store.
Variable abandoned : store -> store.
Variable param_item : string -> store -> F.

(** X16: in the notebook the step is [svi.step] on the hand-written
    guide, and the loop records nothing: its first iteration ends with the
    exception of the guide, [TypeError] on valid scales for "w" and "b",
    while all six lists of [param_evolution] are still empty and the lines
    still hold no data. *)
Theorem recording_stops_at_guide n s0 :
  (0 < n)%N ->
  record_loop (svi_step params_of noise finish abandoned) param_item n
    (LoopState s0 (param_evolution0 F) (lines0 F)) =
  (LoopState (abandoned s0) (param_evolution0 F) (lines0 F),
   Some (if valid_args (guide_w (params_of s0))
            && valid_args (guide_b (params_of s0))
         then TypeError else ValueError)).
Proof.
move=> n_gt0; apply: (record_loop_raised n_gt0).
rewrite record_loopS; cbn [fst snd record_loop iota foldl].
apply: (@record_step_raises _ _ _ _ 0 s0 _ _ (fun=> [::]) (lines0 F)).
rewrite /svi_step /guide /construct valid_guide_s.
case: (valid_args (guide_w (params_of s0))) => //.
by case: (valid_args (guide_b (params_of s0))).
Qed.

End RecordingOnGuide.

(** ** The recording loop on concrete steps *)

Section RecordingInstances.

Import Python Training.

Lemma param_evolution_recorded_witness :
  (forall j, (j < 2)%N ->
     (fun s : nat => if (s < 2)%N then (Return (s%:R : rat), s.+1)
                     else (Raise TypeError, s)) j
     = (Return (j%:R : rat), j.+1)) /\
  (record_loop
     (fun s : nat => if (s < 2)%N then (Return (s%:R : rat), s.+1)
                     else (Raise TypeError, s))
     (fun _ s => s%:R) 5
     (LoopState 0%N (param_evolution0 rat) (lines0 rat))).2
  = Some TypeError.
Proof.
pose step (s : nat) : result rat * nat :=
  if (s < 2)%N then (Return (s%:R : rat), s.+1) else (Raise TypeError, s).
have steps j : (j < 2)%N -> step j = (Return (j%:R : rat), j.+1).
  by case: j => [|[|j]].
split; first exact: steps.
have [_ stops] :=
  @param_evolution_recorded rat nat step (fun _ s => s%:R)
    (fun j => j%:R) (fun j => j) 2 steps.
have raises : step 2 = (Raise TypeError, 2%N) by [].
have lt25 : (2 < 5)%N by [].
by rewrite -/step (stops TypeError 2%N 5%N raises lt25).
Defined.

Lemma recording_stops_at_guide_witness :
  (0 < 3000)%N /\
  (record_loop
     (svi_step (fun _ : nat => Pyro.init_params rat) (fun _ => (0, 0, 0))
               (fun s _ => (0, s)) id)
     (fun _ _ => 0) 3000
     (LoopState 0%N (param_evolution0 rat) (lines0 rat))).2
  = Some TypeError.
Proof.
have n_gt0 : (0 < 3000)%N by [].
split; first exact: n_gt0.
rewrite (recording_stops_at_guide (fun _ : nat => Pyro.init_params rat)
           (fun _ => (0, 0, 0)) (fun s _ => (0, s)) id (fun _ _ => 0)
           0%N n_gt0).
by [].
Defined.

End RecordingInstances.
